(** * Beam search decoding of the machine-translation notebook

    A shallow embedding of the decoding code of
    [machinetranslationmodel.py]: [beautify], [indices_terminated],
    [append_beams], [beam_search] and [greedy_search], with the torch,
    einops and torchtext calls they make written out on lists.

    - A 2-d [LongTensor] of token indices is a list of rows
      ([list (list nat)]) together with its column count, a 1-d
      [FloatTensor] of likelihoods is a [list F].
    - The float type is kept abstract: [F] with its product [fmul], the
      constants [fone] (1.0) and [fdecay] (0.999) and the comparison
      [fleb].  No algebraic law is assumed of them; the order laws that
      sorting needs are explicit hypotheses of the theorems that use
      them.
    - The network is the function [model]: from the source tokens and one
      target row to the scores of the next token (the last position of
      [model.forward]); rows of a batch are scored independently.
    - A library call that raises (top-k over more entries than there are,
      a vocabulary lookup out of range, an attribute that the vocabulary
      does not have) is [Raised].
    - [beam_width] and [max_target] are natural numbers.  The code takes
      Python integers and checks none of them; a negative one makes top-k
      raise, and the facts on them are facts on the values from 0 on.
    - Among equal values [torch.topk] fixes no order.  [topk] puts the
      lower index first, one of the orders torch may return. *)

From Stdlib Require Import String Ascii.
From Stdlib Require Import List Arith ZArith Lia Bool.
From Stdlib Require Import Permutation Sorted QArith.
Import ListNotations.

Close Scope Q_scope.
Open Scope nat_scope.

(* ================================================================= *)
(** ** Outcome of a call *)

(** [Ret a]: the call returned [a]; [Raised]: a library call raised an
    exception; [OutOfFuel]: the loop was cut by the fuel of the model. *)
Inductive run (A : Type) : Type :=
| Ret (a : A)
| Raised
| OutOfFuel.

Arguments Ret {A} a.
Arguments Raised {A}.
Arguments OutOfFuel {A}.

Definition bind {A B : Type} (m : run A) (k : A -> run B) : run B :=
  match m with
  | Ret a => k a
  | Raised => Raised
  | OutOfFuel => OutOfFuel
  end.

Notation "x <- m ;; k" := (bind m (fun x => k))
  (at level 61, m at next level, right associativity).

Fixpoint mapM {A B : Type} (f : A -> run B) (l : list A) : run (list B) :=
  match l with
  | [] => Ret []
  | a :: l' => b <- f a ;; bs <- mapM f l' ;; Ret (b :: bs)
  end.

(* ================================================================= *)
(** ** Text clean-up: [beautify] *)

(** [str.replace(old, new)] for a non-empty [old]: one pass from the
    left, occurrences do not overlap.  [skip] counts the characters of a
    matched occurrence that are still to be dropped. *)
Fixpoint replace_from (skip : nat) (old new s : string) : string :=
  match s with
  | EmptyString => EmptyString
  | String c s' =>
      match skip with
      | S k => replace_from k old new s'
      | O =>
          if String.prefix old s
          then String.append new (replace_from (String.length old - 1) old new s')
          else String c (replace_from 0 old new s')
      end
  end.

Definition replace (old new s : string) : string := replace_from 0 old new s.

Definition space : ascii := " "%char.

Definition str1 (c : ascii) : string := String c EmptyString.
Definition str2 (c d : ascii) : string := String c (String d EmptyString).

(** [sentence.replace(f' {p}', p)] *)
Definition drop_space_before (p : ascii) (sentence : string) : string :=
  replace (str2 space p) (str1 p) sentence.

(** [sentence.replace(f'{l} ', l)] *)
Definition drop_space_after (l : ascii) (sentence : string) : string :=
  replace (str2 l space) (str1 l) sentence.

(** The two loops of [beautify], over the characters of [punc] and of
    [links] in the order given. *)
Definition beautify_with (punc links : list ascii) (sentence : string) : string :=
  let sentence := fold_left (fun s p => drop_space_before p s) punc sentence in
  fold_left (fun s l => drop_space_before l (drop_space_after l s)) links sentence.

(** [punc = {'.', ',', ';'}] and [links = {'-', "'"}] are Python sets, whose
    iteration order is not fixed by the language; [beautify] takes them in
    the order written. *)
Definition punc : list ascii := ["."%char; ","%char; ";"%char].
Definition links : list ascii := ["-"%char; "'"%char].

Definition beautify (sentence : string) : string :=
  beautify_with punc links sentence.

(** Every order in which the two sets can be iterated. *)
Definition punc_orders : list (list ascii) :=
  [ ["."; ","; ";"]; ["."; ";"; ","]; [","; "."; ";"];
    [","; ";"; "."]; [";"; "."; ","]; [";"; ","; "."] ]%char.
Definition links_orders : list (list ascii) :=
  [ ["-"; "'"]; ["'"; "-"] ]%char.

(** [occurs c d s]: the characters [c], [d] stand next to each other
    somewhere in [s]. *)
Definition head_is (d : ascii) (s : string) : bool :=
  match s with
  | String d' _ => Ascii.eqb d' d
  | EmptyString => false
  end.

Fixpoint occurs (c d : ascii) (s : string) : bool :=
  match s with
  | EmptyString => false
  | String x s' => (Ascii.eqb x c && head_is d s') || occurs c d s'
  end.

(** No two consecutive spaces. *)
Definition single_spaced (s : string) : Prop := occurs space space s = false.

(** The replacements of [beautify] all drop one space: the pair [a b]
    becomes [x], where one of [a], [b] is the space and [x] the other. *)
Definition spaced_rule (a b x : ascii) : Prop :=
  (a = space /\ b <> space /\ x = b) \/ (a <> space /\ b = space /\ x = a).

Definition rule : Type := (ascii * ascii * ascii)%type.

Definition apply_rule (r : rule) (s : string) : string :=
  let '(a, b, x) := r in replace (str2 a b) (str1 x) s.

Definition rule_ok (r : rule) : Prop :=
  let '(a, b, x) := r in spaced_rule a b x.

Definition rule_absent (s : string) (r : rule) : Prop :=
  let '(a, b, x) := r in occurs a b s = false.

(** The replacements of [beautify_with], in the order it makes them. *)
Definition rules_of (punc links : list ascii) : list rule :=
  map (fun p => (space, p, p)) punc ++
  flat_map (fun l => [(l, space, l); (space, l, l)]) links.

Definition apply_rules (rs : list rule) (s : string) : string :=
  fold_left (fun s r => apply_rule r s) rs s.

(* ================================================================= *)
(** ** Vocabulary *)

(** [SPECIALS = ['<unk>', '<pad>', '<bos>', '<eos>']] *)
Definition SPECIALS : list string :=
  ["<unk>"; "<pad>"; "<bos>"; "<eos>"]%string.

Fixpoint index_of (tok : string) (l : list string) : option nat :=
  match l with
  | [] => None
  | t :: l' =>
      if String.eqb t tok then Some 0
      else match index_of tok l' with
           | Some i => Some (S i)
           | None => None
           end
  end.

(** A vocabulary built by [build_vocab_from_iterator(..., specials=SPECIALS)]:
    the specials come first, in their order, then the words kept. *)
Definition build_vocab (words : list string) : list string :=
  (SPECIALS ++ words)%list.

(** [vocab[token]] after [set_default_index(vocab['<unk>'])]. *)
Definition vocab_index (itos : list string) (tok : string) : nat :=
  match index_of tok itos with
  | Some i => i
  | None =>
      match index_of "<unk>"%string itos with
      | Some u => u
      | None => 0
      end
  end.

(** [vocab.lookup_tokens(indices)], [vocab.itos[idx]]: raises out of range. *)
Definition lookup_token (itos : list string) (i : nat) : run string :=
  match nth_error itos i with
  | Some t => Ret t
  | None => Raised
  end.

Definition lookup_tokens (itos : list string) (l : list nat) : run (list string) :=
  mapM (lookup_token itos) l.

(** [' '.join(tokens)] *)
Definition join_tokens (l : list string) : string := String.concat " " l.

(* ================================================================= *)
(** ** Tensor operations on lists *)

(** [enumerate(l)] *)
Definition enumerate {A : Type} (l : list A) : list (nat * A) :=
  combine (seq 0 (length l)) l.

(** [eos_token in t] *)
Definition contains (tok : nat) (t : list nat) : bool :=
  existsb (Nat.eqb tok) t.

(** [torch.index_select(t, dim=0, index=idx)].  torch raises when an index
    is out of range; the search only passes indices that [enumerate] or
    top-k produced for a tensor of the same number of rows, and the
    default [d] is never reached. *)
Definition index_select {A : Type} (d : A) (t : list A) (idx : list nat) : list A :=
  map (fun i => nth i t d) idx.

(** [itertools.takewhile] *)
Fixpoint takewhile {A : Type} (f : A -> bool) (l : list A) : list A :=
  match l with
  | [] => []
  | a :: l' => if f a then a :: takewhile f l' else []
  end.

(** [torch.repeat_interleave(t, n)] *)
Definition repeat_interleave {A : Type} (t : list A) (n : nat) : list A :=
  flat_map (fun a => repeat a n) t.

(** Indices, from [k] on, of the entries of [l] that satisfy [g]. *)
Definition positions {A : Type} (g : A -> bool) (k : nat) (l : list A) : list nat :=
  map fst (filter (fun it => g (snd it)) (combine (seq k (length l)) l)).

(** lines 1525-1547 *)
Definition indices_terminated (target : list (list nat)) (eos_token : nat)
  : list nat * list nat :=
  let terminated :=
    map fst (filter (fun it => contains eos_token (snd it)) (enumerate target)) in
  let non_terminated :=
    map fst (filter (fun it => negb (contains eos_token (snd it))) (enumerate target)) in
  (terminated, non_terminated).

(** lines 1550-1577: every sentence is repeated once per beam and the
    beam's token is put at its end; the result is laid out sentence by
    sentence ([view(batch_size*n_beams, n_tokens+1)]). *)
Definition append_beams (target : list (list nat)) (beams : list (list nat))
  : list (list nat) :=
  flat_map (fun tb => map (fun b => (fst tb ++ [b])%list) (snd tb))
           (combine target beams).

(* ================================================================= *)
(** ** The collaborators of the search *)

(** What the decoding code takes from outside: the float type of the
    likelihoods with the operations the code applies to it, the network
    followed by its softmax, the source tokenizer and the words of the two
    vocabularies. *)
Record Env : Type := {
  F : Type;
  fone : F;                     (* 1.0 *)
  fdecay : F;                   (* 0.999 *)
  fmul : F -> F -> F;           (* a * b *)
  fleb : F -> F -> bool;        (* a <= b *)
  softmax : list F -> list F;   (* torch.softmax(_, dim=-1) on one row *)
  model : list nat -> list nat -> list F;
                                (* model(src, tgt)[-1] for one row *)
  src_tokenizer : string -> list string;
  src_words : list string;
  tgt_words : list string
}.

Definition src_vocab (M : Env) : list string := build_vocab (src_words M).
Definition tgt_vocab (M : Env) : list string := build_vocab (tgt_words M).

(** [tgt_vocab['<bos>']], [tgt_vocab['<eos>']], [tgt_vocab['<pad>']] *)
Definition BOS_IDX (M : Env) : nat := vocab_index (tgt_vocab M) "<bos>".
Definition EOS_IDX (M : Env) : nat := vocab_index (tgt_vocab M) "<eos>".
Definition PAD_IDX (M : Env) : nat := vocab_index (tgt_vocab M) "<pad>".
Definition UNK_IDX (M : Env) : nat := vocab_index (tgt_vocab M) "<unk>".

(* ----------------------------------------------------------------- *)
(** *** Sorting and selection on likelihoods *)

(** Stable sort by decreasing key: [sorted(l, key=key, reverse=True)]. *)
Fixpoint insert_desc (M : Env) {A : Type} (key : A -> F M) (x : A) (l : list A)
  : list A :=
  match l with
  | [] => [x]
  | y :: l' =>
      if fleb M (key y) (key x) then x :: y :: l'
      else y :: insert_desc M key x l'
  end.

Definition sort_desc (M : Env) {A : Type} (key : A -> F M) (l : list A) : list A :=
  fold_right (insert_desc M key) [] l.

(** [t.topk(k)]: the [k] largest values in decreasing order with their
    indices; raises when [t] has fewer than [k] entries.  Among equal
    values torch fixes no order; the lower index comes first here. *)
Definition topk (M : Env) (k : nat) (t : list (F M)) : run (list (F M) * list nat) :=
  if k <=? length t then
    let top := firstn k (sort_desc M snd (enumerate t)) in
    Ret (map snd top, map fst top)
  else Raised.

(** [t.argmax()]: the index of the first maximal value; raises on an empty
    tensor. *)
Fixpoint argmax_from (M : Env) (start : nat) (t : list (F M)) : option (nat * F M) :=
  match t with
  | [] => None
  | x :: t' =>
      match argmax_from M (S start) t' with
      | None => Some (start, x)
      | Some (j, y) => if fleb M y x then Some (start, x) else Some (j, y)
      end
  end.

Definition argmax (M : Env) (t : list (F M)) : run nat :=
  match argmax_from M 0 t with
  | Some (i, _) => Ret i
  | None => Raised
  end.

(* ----------------------------------------------------------------- *)
(** *** Beam search *)

(** The loop state: [tgt_tokens] (with [n_tokens = tgt_tokens.shape[1]])
    and [target_probs]. *)
Record pool (M : Env) : Type := {
  n_tokens : nat;
  tgt_tokens : list (list nat);
  target_probs : list (F M)
}.

Arguments n_tokens {M} p.
Arguments tgt_tokens {M} p.
Arguments target_probs {M} p.

(** The hypotheses of a pool: row [i] of the tokens with entry [i] of the
    likelihoods. *)
Definition hypotheses {M : Env} (p : pool M) : list (list nat * F M) :=
  combine (tgt_tokens p) (target_probs p).

(** [a *= b] on two 1-d tensors of one shape *)
Definition mul_rows (M : Env) (a b : list (F M)) : list (F M) :=
  map (fun ab => fmul M (fst ab) (snd ab)) (combine a b).

(** Lines 1623-1667 of the loop body: score every sentence, split the
    terminated sentences from the others, expand the others by their
    beams, pad and penalize the terminated ones, group the two up. *)
Definition beam_merge (M : Env) (src_tokens : list nat) (beam_width : nat)
  (p : pool M) : run (pool M) :=
  tops <- mapM (fun row => topk M beam_width (softmax M (model M src_tokens row)))
               (tgt_tokens p) ;;
  let probs := map fst tops in
  let predicted := map snd tops in
  let idx_terminated := fst (indices_terminated (tgt_tokens p) (EOS_IDX M)) in
  let idx_not_terminated := snd (indices_terminated (tgt_tokens p) (EOS_IDX M)) in
  let tgt_terminated := index_select [] (tgt_tokens p) idx_terminated in
  let tgt_probs_terminated := index_select (fone M) (target_probs p) idx_terminated in
  let tgt_others := index_select [] (tgt_tokens p) idx_not_terminated in
  let tgt_probs_others := index_select (fone M) (target_probs p) idx_not_terminated in
  let predicted := index_select [] predicted idx_not_terminated in
  let probs := index_select [] probs idx_not_terminated in
  let tgt_others := append_beams tgt_others predicted in
  let tgt_terminated := map (fun row => row ++ [0]) tgt_terminated in
  let tgt_probs_others := repeat_interleave tgt_probs_others beam_width in
  let tgt_probs_others := mul_rows M tgt_probs_others (concat probs) in
  let tgt_probs_terminated := map (fun l => fmul M l (fdecay M)) tgt_probs_terminated in
  Ret {| n_tokens := S (n_tokens p);
         tgt_tokens := tgt_others ++ tgt_terminated;
         target_probs := tgt_probs_others ++ tgt_probs_terminated |}.

(** Lines 1669-1674: keep only the top [max_target] sentences. *)
Definition beam_trim (M : Env) (max_target : nat) (p : pool M) : run (pool M) :=
  if length (target_probs p) <=? max_target then Ret p
  else
    top <- topk M max_target (target_probs p) ;;
    Ret {| n_tokens := n_tokens p;
           tgt_tokens := index_select [] (tgt_tokens p) (snd top);
           target_probs := fst top |}.

(** One turn of the [while] loop. *)
Definition beam_step (M : Env) (src_tokens : list nat) (beam_width max_target : nat)
  (p : pool M) : run (pool M) :=
  merged <- beam_merge M src_tokens beam_width p ;;
  beam_trim M max_target merged.

(** [while tgt_tokens.shape[1] < max_sentence_length: ...] *)
Fixpoint beam_loop (M : Env) (src_tokens : list nat) (beam_width max_target : nat)
  (max_sentence_length : Z) (fuel : nat) (p : pool M) : run (pool M) :=
  if (Z.of_nat (n_tokens p) <? max_sentence_length)%Z then
    match fuel with
    | O => OutOfFuel
    | S fuel' =>
        p' <- beam_step M src_tokens beam_width max_target p ;;
        beam_loop M src_tokens beam_width max_target max_sentence_length fuel' p'
    end
  else Ret p.

(** Lines 1677-1679: remove [<bos>], stop before the first [<eos>]. *)
Definition sentence_tokens (M : Env) (row : list nat) : list nat :=
  takewhile (fun t => negb (t =? EOS_IDX M)) (tl row).

(** Lines 1680 and 1683. *)
Definition sentence_of (M : Env) (row : list nat) : run string :=
  tokens <- lookup_tokens (tgt_vocab M) (sentence_tokens M row) ;;
  Ret (beautify (join_tokens tokens)).

(** Lines 1676-1690. *)
Definition beam_sentences (M : Env) (p : pool M) : run (list (string * F M)) :=
  sentences <- mapM (sentence_of M) (tgt_tokens p) ;;
  Ret (sort_desc M snd (combine sentences (target_probs p))).

(** Lines 1608-1612. *)
Definition beam_source (M : Env) (source : string) : list nat :=
  map (vocab_index (src_vocab M))
      (["<bos>"%string] ++ src_tokenizer M source ++ ["<eos>"%string]).

Definition beam_init (M : Env) : pool M :=
  {| n_tokens := 1;
     tgt_tokens := [map (vocab_index (tgt_vocab M)) ["<bos>"%string]];
     target_probs := [fone M] |}.

(** The pool the loop ends with; the loop gets as much fuel as
    [max_sentence_length]. *)
Definition beam_final (M : Env) (source : string) (beam_width max_target : nat)
  (max_sentence_length : Z) : run (pool M) :=
  beam_loop M (beam_source M source) beam_width max_target max_sentence_length
            (Z.to_nat max_sentence_length) (beam_init M).

Definition beam_search (M : Env) (source : string) (beam_width max_target : nat)
  (max_sentence_length : Z) : run (list (string * F M)) :=
  p <- beam_final M source beam_width max_target max_sentence_length ;;
  beam_sentences M p.

(** The pools the loop of [beam_search] goes through. *)
Inductive visited (M : Env) (source : string) (beam_width max_target : nat)
  (max_sentence_length : Z) : pool M -> Prop :=
| visited_init :
    visited M source beam_width max_target max_sentence_length (beam_init M)
| visited_step p p' :
    visited M source beam_width max_target max_sentence_length p ->
    (Z.of_nat (n_tokens p) < max_sentence_length)%Z ->
    beam_step M (beam_source M source) beam_width max_target p = Ret p' ->
    visited M source beam_width max_target max_sentence_length p'.

(* ----------------------------------------------------------------- *)
(** *** Notions used to state the facts *)

(** Decreasing order of the keys: [a] may stand before [b]. *)
Definition desc (M : Env) {A : Type} (key : A -> F M) (a b : A) : Prop :=
  fleb M (key b) (key a) = true.

(** The entries of [t] on the rows of [l] that satisfy [g]. *)
Definition kept {A B : Type} (g : A -> bool) (l : list A) (t : list B) : list B :=
  map snd (filter (fun x => g (fst x)) (combine l t)).

Definition terminated (M : Env) (row : list nat) : bool := contains (EOS_IDX M) row.
Definition active (M : Env) (row : list nat) : bool := negb (contains (EOS_IDX M) row).

(** The two tensors of a pool have as many rows, and every row of tokens
    has [n_tokens] entries. *)
Definition aligned {M : Env} (p : pool M) : Prop :=
  length (tgt_tokens p) = length (target_probs p).

Definition rectangular {M : Env} (p : pool M) : Prop :=
  Forall (fun row => length row = n_tokens p) (tgt_tokens p).

(** What the network and top-k give for one row. *)
Definition beams_of (M : Env) (src_tokens : list nat) (beam_width : nat)
  (row : list nat) : run (list (F M) * list nat) :=
  topk M beam_width (softmax M (model M src_tokens row)).

(** A top-k result of [k] values and [k] indices. *)
Definition full (M : Env) (k : nat) (top : list (F M) * list nat) : Prop :=
  length (fst top) = k /\ length (snd top) = k.

(** The likelihood after [n] turns as a terminated sentence. *)
Fixpoint decayed (M : Env) (n : nat) (l : F M) : F M :=
  match n with
  | O => l
  | S n' => decayed M n' (fmul M l (fdecay M))
  end.




(** No two entries of [t] are equal: none of two is both below and above
    the other. *)
Definition tie_free (M : Env) (t : list (F M)) : bool :=
  forallb (fun p =>
             forallb (fun q =>
                        (fst p =? fst q)
                        || negb (fleb M (snd p) (snd q) && fleb M (snd q) (snd p)))
                     (enumerate t))
          (enumerate t).

(* ----------------------------------------------------------------- *)
(** *** Greedy search *)

(** The attributes that [greedy_search] reads of its target vocabulary,
    each with the type of what the code does with its value. *)
Inductive vocab_attribute : Type -> Type :=
| attr_stoi : vocab_attribute (string -> run nat)
| attr_itos : vocab_attribute (list string)
| attr_init_token : vocab_attribute string
| attr_eos_token : vocab_attribute string.

(** [getattr(vocab, name)] on a vocabulary of this program.  The
    vocabularies are the [Vocab] objects that [build_vocab_from_iterator]
    returns (lines 199-211): they answer [vocab[token]], [vocab(tokens)],
    [lookup_tokens] and [set_default_index], and have none of the four
    attributes above; reading one raises AttributeError. *)
Definition vocab_getattr {A : Type} (vocab : list string) (name : vocab_attribute A)
  : run A :=
  Raised.

(** [vocab.stoi[vocab.init_token]], [vocab.stoi[vocab.eos_token]]:
    [vocab.stoi] is read first, then the token, then the entry. *)
Definition vocab_stoi (vocab : list string) (name : vocab_attribute string) : run nat :=
  table <- vocab_getattr vocab attr_stoi ;;
  token <- vocab_getattr vocab name ;;
  table token.

(** [vocab.itos[idx]] *)
Definition vocab_itos (vocab : list string) (idx : nat) : run string :=
  table <- vocab_getattr vocab attr_itos ;;
  lookup_token table idx.

(** Lines 1424-1432:
    [for _ in range(n): ...; if next_token_idx == eos: break] *)
Fixpoint greedy_loop (M : Env) (src_tokens : list nat) (n : nat) (tgt : list nat)
  : run (list nat) :=
  match n with
  | O => Ret tgt
  | S n' =>
      next_token_idx <- argmax M (model M src_tokens tgt) ;;
      let tgt := tgt ++ [next_token_idx] in
      eos <- vocab_stoi (tgt_vocab M) attr_eos_token ;;
      if next_token_idx =? eos then Ret tgt
      else greedy_loop M src_tokens n' tgt
  end.

(** Line 1420: the source goes to the network without [<bos>]/[<eos>]. *)
Definition greedy_source (M : Env) (source : string) : list nat :=
  map (vocab_index (src_vocab M)) (src_tokenizer M source).

(** Lines 1394-1436.  Line 1422 reads [tgt_vocab.stoi] before the network
    is run. *)
Definition greedy_search (M : Env) (source : string) (max_sentence_length : Z)
  : run string :=
  let tokens := greedy_source M source in
  init <- vocab_stoi (tgt_vocab M) attr_init_token ;;
  tgt <- greedy_loop M tokens (Z.to_nat max_sentence_length) [init] ;;
  words <- mapM (vocab_itos (tgt_vocab M)) (tl tgt) ;;
  Ret (join_tokens words).

(* ================================================================= *)
(** ** A concrete setting: rational likelihoods *)

(** Likelihoods in [Q], a network that already returns probabilities
    (its softmax is the identity), a tokenizer that returns one token per
    character, and the vocabulary [a], [b] after the specials. *)
Fixpoint chars (s : string) : list string :=
  match s with
  | EmptyString => []
  | String c s' => str1 c :: chars s'
  end.

Definition Qenv (net : list nat -> list nat -> list Q) : Env :=
  {| F := Q;
     fone := 1%Q;
     fdecay := (999 # 1000)%Q;
     fmul := Qmult;
     fleb := Qle_bool;
     softmax := fun t => t;
     model := net;
     src_tokenizer := chars;
     src_words := ["a"; "b"]%string;
     tgt_words := ["a"; "b"]%string |}.

(** Probability 1 for [<eos>] whatever the sentences. *)
Definition net_eos (src tgt : list nat) : list Q :=
  [0; 0; 0; 1; 0; 0]%Q.

(** Probability 6/10 for [a] and 4/10 for [b] while the target has fewer
    than 4 tokens, then probability 1 for [<eos>]. *)
Definition net_ab (src tgt : list nat) : list Q :=
  if length tgt <? 4 then [0; 0; 0; 0; 6 # 10; 4 # 10]%Q
  else [0; 0; 0; 1; 0; 0]%Q.

(** Always [a]. *)
Definition net_a (src tgt : list nat) : list Q :=
  [0; 0; 0; 0; 1; 0]%Q.

(** Pools of the search with [net_ab], beam width 2 and two hypotheses
    kept: after the first turn, the second turn before and after the
    trimming; and a pool of one terminated sentence with [net_eos]. *)
Definition ab_pool1 : pool (Qenv net_ab) :=
  Build_pool (Qenv net_ab) 2 [[2; 4]; [2; 5]] [(6 # 10)%Q; (4 # 10)%Q].

Definition ab_merged2 : pool (Qenv net_ab) :=
  Build_pool (Qenv net_ab) 3 [[2; 4; 4]; [2; 4; 5]; [2; 5; 4]; [2; 5; 5]]
             [(36 # 100)%Q; (24 # 100)%Q; (24 # 100)%Q; (16 # 100)%Q].

Definition ab_pool2 : pool (Qenv net_ab) :=
  Build_pool (Qenv net_ab) 3 [[2; 4; 4]; [2; 4; 5]] [(36 # 100)%Q; (24 # 100)%Q].

Definition eos_pool : pool (Qenv net_eos) :=
  Build_pool (Qenv net_eos) 2 [[2; 3]] [1%Q].

(* ================================================================= *)
(** ** Datasets and batches *)

(** The line feed, ['\n']. *)
Definition newline : ascii := "010"%char.

(** [c in s] *)
Fixpoint has_char (c : ascii) (s : string) : bool :=
  match s with
  | EmptyString => false
  | String x s' => Ascii.eqb x c || has_char c s'
  end.

(** The characters of [s] other than spaces, in their order. *)
Fixpoint without_spaces (s : string) : string :=
  match s with
  | EmptyString => EmptyString
  | String x s' =>
      if Ascii.eqb x space then without_spaces s' else String x (without_spaces s')
  end.

(** Lines 216-238: the samples with a sentence of [max_words] tokens or
    more are skipped, the others lose their line feeds. *)
Fixpoint preprocess (en_tokenizer fr_tokenizer : string -> list string)
  (max_words : Z) (dataset : list (string * string)) : list (string * string) :=
  match dataset with
  | [] => []
  | (en_s, fr_s) :: rest =>
      if ((Z.of_nat (length (en_tokenizer en_s)) >=? max_words)
          || (Z.of_nat (length (fr_tokenizer fr_s)) >=? max_words))%Z
      then preprocess en_tokenizer fr_tokenizer max_words rest
      else (replace (str1 newline) EmptyString en_s,
            replace (str1 newline) EmptyString fr_s)
             :: preprocess en_tokenizer fr_tokenizer max_words rest
  end.

(** Lines 135-181: the samples with the two vocabularies (their words
    after the specials, as [build_vocab] makes them) and tokenizers. *)
Record TranslationDataset : Type := {
  dataset : list (string * string);
  en_words : list string;
  fr_words : list string;
  en_tokenizer : string -> list string;
  fr_tokenizer : string -> list string
}.

Definition en_vocab (d : TranslationDataset) : list string := build_vocab (en_words d).
Definition fr_vocab (d : TranslationDataset) : list string := build_vocab (fr_words d).

(** [__len__] *)
Definition dataset_len (d : TranslationDataset) : nat := length (dataset d).

(** [l[index]] on a Python list: a negative index counts from the end,
    an index out of range raises. *)
Definition list_getitem {A : Type} (l : list A) (index : Z) : run A :=
  let i := if (index <? 0)%Z then (index + Z.of_nat (length l))%Z else index in
  if (i <? 0)%Z then Raised
  else match nth_error l (Z.to_nat i) with
       | Some a => Ret a
       | None => Raised
       end.

(** [__getitem__] *)
Definition dataset_getitem (d : TranslationDataset) (index : Z)
  : run (list nat * list nat) :=
  sample <- list_getitem (dataset d) index ;;
  let en_tokens := ["<bos>"%string] ++ en_tokenizer d (fst sample) ++ ["<eos>"%string] in
  let fr_tokens := ["<bos>"%string] ++ fr_tokenizer d (snd sample) ++ ["<eos>"%string] in
  Ret (map (vocab_index (en_vocab d)) en_tokens,
       map (vocab_index (fr_vocab d)) fr_tokens).

(** [pad_sequence(sequences, padding_value, batch_first=True)]: every
    sequence is filled up to the longest one; raises on an empty list. *)
Definition max_length (sequences : list (list nat)) : nat :=
  fold_right (fun s m => Nat.max (length s) m) 0 sequences.

Definition pad_sequence (padding_value : nat) (sequences : list (list nat))
  : run (list (list nat)) :=
  match sequences with
  | [] => Raised
  | _ :: _ =>
      Ret (map (fun s => s ++ repeat padding_value (max_length sequences - length s))
               sequences)
  end.

(** Lines 286-311. *)
Definition generate_batch (data_batch : list (list nat * list nat))
  (src_pad_idx tgt_pad_idx : nat) : run (list (list nat) * list (list nat)) :=
  let en_batch := map fst data_batch in
  let fr_batch := map snd data_batch in
  en_batch <- pad_sequence src_pad_idx en_batch ;;
  fr_batch <- pad_sequence tgt_pad_idx fr_batch ;;
  Ret (en_batch, fr_batch).

(* ================================================================= *)
(** ** Top-k accuracy *)

(** Lines 1720-1749, on [real_tokens] of shape [n] and [probs_tokens] of
    shape [n, n_vocabulary]: the two sums [good.sum()] and [total] whose
    quotient the function returns (0 / 0, not a number, when every token
    is the padding).  Row [i] of [good] has a [True] where a predicted
    token of row [i] is the real token [i] and that token is not the
    padding.  With another number of rows of scores than of tokens torch
    broadcasts or raises; the facts are stated for equal numbers. *)
Definition good_row (tgt_pad_idx : nat) (real : nat) (pred : list nat) : nat :=
  length (filter (fun p => (p =? real) && negb (real =? tgt_pad_idx)) pred).

Definition topk_accuracy_sums (M : Env) (real_tokens : list nat)
  (probs_tokens : list (list (F M))) (k : nat) (tgt_pad_idx : nat)
  : run (nat * nat) :=
  let total := length (filter (fun t => negb (t =? tgt_pad_idx)) real_tokens) in
  tops <- mapM (topk M k) probs_tokens ;;
  let pred_tokens := map snd tops in
  let good :=
    list_sum (map (fun rp => good_row tgt_pad_idx (fst rp) (snd rp))
                  (combine real_tokens pred_tokens)) in
  Ret (good, total).

(** A sample of three pairs and its data set with the vocabulary [a],
    [b]. *)
Definition ab_dataset : TranslationDataset :=
  {| dataset := [("ab", "ba"); ("a", "b"); ("abc", "a")]%string;
     en_words := ["a"; "b"]%string;
     fr_words := ["a"; "b"]%string;
     en_tokenizer := chars;
     fr_tokenizer := chars |}.

(** Scores of three tokens over six entries, for the accuracy. *)
Definition acc_probs : list (list Q) :=
  [ [0; 0; 0; 0; 6 # 10; 4 # 10]; [0; 0; 0; 0; 6 # 10; 4 # 10]; [0; 1; 0; 0; 0; 0] ]%Q.

(** Scores of the same shape, no two of a row equal. *)
Definition acc_scores : list (list Q) :=
  [ [1 # 100; 2 # 100; 3 # 100; 4 # 100; 50 # 100; 40 # 100];
    [1 # 100; 2 # 100; 3 # 100; 4 # 100; 50 # 100; 40 # 100];
    [1 # 100; 90 # 100; 3 # 100; 2 # 100; 0; 4 # 100] ]%Q.

(** The final pools of the search with [net_ab] (beam width 2, two
    hypotheses, length 6) and with [net_a] (beam width 1, one hypothesis,
    length 3). *)
Definition ab_final : pool (Qenv net_ab) :=
  Build_pool (Qenv net_ab) 6 [[2; 4; 4; 4; 3; 0]; [2; 4; 4; 5; 3; 0]]
             [(215784 # 1000000)%Q; (143856 # 1000000)%Q].

Definition a_final : pool (Qenv net_a) :=
  Build_pool (Qenv net_a) 3 [[2; 4; 4]] [1%Q].

(* ================================================================= *)
(** * Facts *)

(* ================================================================= *)
(** ** [beautify] *)

Section TextFacts.

Local Open Scope char_scope.

(** Two characters at a time. *)
Lemma string_pair_ind (P : string -> Prop) :
  P EmptyString ->
  (forall c, P (str1 c)) ->
  (forall c d s, P s -> P (String d s) -> P (String c (String d s))) ->
  forall s, P s.
Proof.
  intros H0 H1 H2 s.
  assert (H : P s /\ forall c, P (String c s)).
  { induction s as [|d s [IHs IHc]].
    - split; [exact H0 | exact H1].
    - split; [apply IHc | intros c; apply H2; [exact IHs | apply IHc]]. }
  apply H.
Qed.

(** The equations of [replace] for an [old] of two characters and a
    [new] of one. *)
Lemma replace2_nil a b x : replace (str2 a b) (str1 x) EmptyString = EmptyString.
Proof. reflexivity. Qed.

Lemma replace2_one a b x c : replace (str2 a b) (str1 x) (str1 c) = str1 c.
Proof.
  unfold replace, str2, str1. cbn.
  destruct (ascii_dec a c); reflexivity.
Qed.

Lemma replace2_cons a b x c d s :
  replace (str2 a b) (str1 x) (String c (String d s)) =
  if (c =? a) && (d =? b)
  then String x (replace (str2 a b) (str1 x) s)
  else String c (replace (str2 a b) (str1 x) (String d s)).
Proof.
  unfold replace, str2, str1.
  cbn [replace_from String.prefix String.length Nat.sub String.append].
  destruct (ascii_dec a c) as [-> | Hac].
  - rewrite Ascii.eqb_refl. cbn [andb].
    destruct (ascii_dec b d) as [-> | Hbd].
    + rewrite Ascii.eqb_refl. destruct s; reflexivity.
    + destruct (Ascii.eqb_spec d b); [congruence | reflexivity].
  - destruct (Ascii.eqb_spec c a); [congruence | reflexivity].
Qed.

Lemma occurs_cons c d x s :
  occurs c d (String x s) = (x =? c) && head_is d s || occurs c d s.
Proof. reflexivity. Qed.

(** The first character after a replacement. *)
Lemma head_replace2 a b x e d s :
  head_is e (replace (str2 a b) (str1 x) (String d s)) =
  if (d =? a) && head_is b s then x =? e else d =? e.
Proof.
  destruct s as [|d' s].
  - fold (str1 d). rewrite replace2_one. cbn. rewrite andb_false_r. reflexivity.
  - rewrite replace2_cons. cbn [head_is].
    destruct ((d =? a) && (d' =? b)); reflexivity.
Qed.

Ltac head_cases :=
  repeat match goal with
         | |- context [head_is ?u ?v] => destruct (head_is u v)
         | H : context [head_is ?u ?v] |- _ => destruct (head_is u v)
         end.

Ltac ascii_cases :=
  unfold space in *;
  repeat match goal with
         | |- context [Ascii.eqb ?u ?v] => destruct (Ascii.eqb_spec u v); subst
         | H : context [Ascii.eqb ?u ?v] |- _ => destruct (Ascii.eqb_spec u v); subst
         end;
  unfold space in *; cbn [andb orb negb] in *; try congruence; try reflexivity.

Lemma single_spaced_cons c s :
  single_spaced (String c s) ->
  ((c =? space) && head_is space s = false) /\ single_spaced s.
Proof.
  unfold single_spaced. rewrite occurs_cons. intros H.
  apply orb_false_elim in H. exact H.
Qed.

Lemma rule_no_new a b x c d s :
  spaced_rule a b x -> (c = space \/ d = space) ->
  single_spaced s -> occurs c d s = false ->
  occurs c d (replace (str2 a b) (str1 x) s) = false.
Proof.
  intros Hr Hcd. induction s as [| c0 | c0 d0 s IHs IHd] using string_pair_ind.
  - reflexivity.
  - intros _ Ho. rewrite replace2_one. exact Ho.
  - intros Hs Ho.
    apply single_spaced_cons in Hs. destruct Hs as [Hs0 Hs1].
    pose proof (single_spaced_cons _ _ Hs1) as [Hs2 Hs3].
    rewrite occurs_cons in Ho. apply orb_false_elim in Ho. destruct Ho as [Ho0 Ho1].
    pose proof Ho1 as Ho1'. rewrite occurs_cons in Ho1'.
    apply orb_false_elim in Ho1'. destruct Ho1' as [Ho2 Ho3].
    specialize (IHs Hs3 Ho3). specialize (IHd Hs1 Ho1).
    rewrite replace2_cons.
    destruct ((c0 =? a) && (d0 =? b)) eqn:E.
    + rewrite occurs_cons, IHs, orb_false_r.
      destruct s as [|e s]; [cbn; apply andb_false_r|].
      rewrite head_replace2. cbn [head_is] in *.
      unfold space in *.
      destruct Hr as [(-> & Hb & ->) | (Ha & -> & ->)], Hcd as [-> | ->];
        head_cases; ascii_cases.
    + rewrite occurs_cons, IHd, orb_false_r.
      rewrite head_replace2. cbn [head_is] in *.
      unfold space in *.
      destruct Hr as [(-> & Hb & ->) | (Ha & -> & ->)], Hcd as [-> | ->];
        head_cases; ascii_cases.
Qed.

Lemma rule_removes a b x s :
  spaced_rule a b x -> single_spaced s ->
  occurs a b (replace (str2 a b) (str1 x) s) = false.
Proof.
  intros Hr. induction s as [| c0 | c0 d0 s IHs IHd] using string_pair_ind.
  - reflexivity.
  - intros _. rewrite replace2_one. cbn. rewrite andb_false_r. reflexivity.
  - intros Hs.
    apply single_spaced_cons in Hs. destruct Hs as [Hs0 Hs1].
    pose proof (single_spaced_cons _ _ Hs1) as [Hs2 Hs3].
    specialize (IHs Hs3). specialize (IHd Hs1).
    rewrite replace2_cons.
    destruct ((c0 =? a) && (d0 =? b)) eqn:E.
    + rewrite occurs_cons, IHs, orb_false_r.
      destruct s as [|e s]; [cbn; apply andb_false_r|].
      rewrite head_replace2. cbn [head_is] in *.
      destruct Hr as [(-> & Hb & ->) | (Ha & -> & ->)];
        head_cases; ascii_cases.
    + rewrite occurs_cons, IHd, orb_false_r.
      rewrite head_replace2. cbn [head_is] in *.
      destruct Hr as [(-> & Hb & ->) | (Ha & -> & ->)];
        head_cases; ascii_cases.
Qed.

Lemma replace2_absent a b x s :
  occurs a b s = false -> replace (str2 a b) (str1 x) s = s.
Proof.
  induction s as [| c0 | c0 d0 s IHs IHd] using string_pair_ind.
  - reflexivity.
  - intros _. apply replace2_one.
  - intros Ho. rewrite occurs_cons in Ho. apply orb_false_elim in Ho.
    destruct Ho as [Ho0 Ho1]. cbn [head_is] in Ho0.
    rewrite replace2_cons, Ho0, (IHd Ho1). reflexivity.
Qed.

Lemma beautify_with_rules punc links s :
  beautify_with punc links s = apply_rules (rules_of punc links) s.
Proof.
  unfold beautify_with, apply_rules, rules_of.
  rewrite fold_left_app.
  assert (Hp : forall t,
             fold_left (fun s p => drop_space_before p s) punc t =
             fold_left (fun s r => apply_rule r s) (map (fun p => (space, p, p)) punc) t).
  { induction punc as [|p punc IH]; intros t; [reflexivity | apply IH]. }
  assert (Hl : forall t,
             fold_left (fun s l => drop_space_before l (drop_space_after l s)) links t =
             fold_left (fun s r => apply_rule r s)
                       (flat_map (fun l => [(l, space, l); (space, l, l)]) links) t).
  { induction links as [|l links IH]; intros t; [reflexivity | apply IH]. }
  rewrite Hp, Hl. reflexivity.
Qed.

Lemma rules_of_ok punc links :
  Forall (fun c => c <> space) punc -> Forall (fun c => c <> space) links ->
  Forall rule_ok (rules_of punc links).
Proof.
  intros Hp Hl. unfold rules_of. apply Forall_app. split.
  - induction Hp as [|p punc Hp _ IH]; cbn; constructor; [|exact IH].
    left. auto.
  - induction Hl as [|l links Hl _ IH]; cbn; [constructor|].
    constructor; [right; auto|]. constructor; [left; auto | exact IH].
Qed.

Lemma rule_ok_spaced a b x : spaced_rule a b x -> a = space \/ b = space.
Proof. intros [(H & _) | (_ & H & _)]; auto. Qed.

(** After the replacements no pattern of theirs is left and no new pair
    with a space has appeared. *)
Lemma apply_rules_clean rs :
  Forall rule_ok rs ->
  forall s, single_spaced s ->
    single_spaced (apply_rules rs s) /\
    (forall c d, c = space \/ d = space ->
                 occurs c d s = false -> occurs c d (apply_rules rs s) = false) /\
    Forall (rule_absent (apply_rules rs s)) rs.
Proof.
  induction 1 as [|[[a b] x] rs Hr _ IH]; intros s Hs.
  - cbn. repeat split; auto.
  - cbn [rule_ok] in Hr.
    assert (Hs' : single_spaced (apply_rule (a, b, x) s)).
    { apply rule_no_new; auto. }
    destruct (IH _ Hs') as (H1 & H2 & H3).
    change (apply_rules ((a, b, x) :: rs) s)
      with (apply_rules rs (apply_rule (a, b, x) s)).
    split; [exact H1|]. split.
    + intros c d Hcd Ho. apply H2; [exact Hcd|]. apply rule_no_new; auto.
    + constructor; [|exact H3].
      cbn [rule_absent]. apply H2; [eapply rule_ok_spaced; eauto|].
      apply rule_removes; auto.
Qed.

Lemma apply_rules_absent rs s :
  Forall (rule_absent s) rs -> apply_rules rs s = s.
Proof.
  induction 1 as [|[[a b] x] rs Hr _ IH]; [reflexivity|].
  change (apply_rules ((a, b, x) :: rs) s) with (apply_rules rs (apply_rule (a, b, x) s)).
  cbn [rule_absent] in Hr. cbn [apply_rule].
  rewrite (replace2_absent _ _ _ _ Hr). exact IH.
Qed.

(** Whatever the order in which the two sets are iterated. *)
Lemma beautify_with_idempotent punc links s :
  Forall (fun c => c <> space) punc -> Forall (fun c => c <> space) links ->
  single_spaced s ->
  beautify_with punc links (beautify_with punc links s) = beautify_with punc links s.
Proof.
  intros Hp Hl Hs. rewrite !beautify_with_rules.
  apply apply_rules_absent.
  apply apply_rules_clean; [apply rules_of_ok; assumption | exact Hs].
Qed.

(** C9, amended: [beautify] is idempotent on every sentence without two
    consecutive spaces. *)
Theorem beautify_idempotent_single_spaced s :
  single_spaced s -> beautify (beautify s) = beautify s.
Proof.
  intros Hs. unfold beautify. apply beautify_with_idempotent; [| | exact Hs].
  - unfold punc. repeat constructor; discriminate.
  - unfold links. repeat constructor; discriminate.
Qed.

(** C9, as stated, fails: on two spaces before a full stop the first pass
    drops one space and the second pass the other. *)
Lemma beautify_not_idempotent :
  beautify (beautify "a  .") <> beautify "a  .".
Proof. vm_compute. discriminate. Qed.

(** The same input, in every iteration order of the two sets. *)
Lemma beautify_any_order_not_idempotent :
  Forall (fun ps => Forall (fun ls =>
    beautify_with ps ls (beautify_with ps ls "a  .") <> beautify_with ps ls "a  .")
    links_orders) punc_orders.
Proof. repeat constructor; vm_compute; discriminate. Qed.

End TextFacts.

(* ================================================================= *)
(** ** Tensor operations *)

Section TensorFacts.

Context {A : Type}.

Lemma positions_cons (g : A -> bool) k a l :
  positions g k (a :: l) =
  if g a then k :: positions g (S k) l else positions g (S k) l.
Proof. unfold positions. cbn. destruct (g a); reflexivity. Qed.

Lemma positions_In (g : A -> bool) (d : A) i k l :
  In i (positions g k l) <->
  k <= i /\ i < k + length l /\ g (nth (i - k) l d) = true.
Proof.
  revert k. induction l as [|a l IH]; intros k.
  - cbn. split; [tauto | lia].
  - rewrite positions_cons.
    assert (Hin : In i (positions g (S k) l) <->
                  k < i /\ i < k + length (a :: l) /\ g (nth (i - k) (a :: l) d) = true).
    { rewrite IH. cbn [length]. split.
      - intros (H1 & H2 & H3). repeat split; try lia.
        replace (i - k) with (S (i - S k)) by lia. exact H3.
      - intros (H1 & H2 & H3). repeat split; try lia.
        replace (i - k) with (S (i - S k)) in H3 by lia. exact H3. }
    destruct (g a) eqn:Ega.
    + cbn [In]. rewrite Hin. split.
      * intros [<- | (H1 & H2 & H3)].
        -- rewrite Nat.sub_diag. cbn. repeat split; try lia. exact Ega.
        -- repeat split; try lia. exact H3.
      * intros (H1 & H2 & H3).
        destruct (Nat.eq_dec k i) as [-> | Hne]; [left; reflexivity | right].
        repeat split; try lia. exact H3.
    + rewrite Hin. split.
      * intros (H1 & H2 & H3). repeat split; try lia. exact H3.
      * intros (H1 & H2 & H3). repeat split; try lia; try exact H3.
        destruct (Nat.eq_dec k i) as [-> | Hne]; [|lia].
        rewrite Nat.sub_diag in H3. cbn in H3. congruence.
Qed.

Lemma positions_sorted (g : A -> bool) k l : StronglySorted lt (positions g k l).
Proof.
  revert k. induction l as [|a l IH]; intros k.
  - constructor.
  - rewrite positions_cons. destruct (g a); [|apply IH].
    constructor; [apply IH|].
    apply Forall_forall. intros i Hi.
    destruct l as [|b l]; [destruct Hi|].
    apply (positions_In g b) in Hi. lia.
Qed.

Lemma positions_length (g : A -> bool) k l :
  length (positions g k l) + length (positions (fun a => negb (g a)) k l) = length l.
Proof.
  revert k. induction l as [|a l IH]; intros k; [reflexivity|].
  rewrite !positions_cons. specialize (IH (S k)).
  destruct (g a); cbn [negb length]; lia.
Qed.

(** Selecting the rows at the positions of a mask keeps the rows the mask
    keeps, in their order. *)
Lemma index_select_positions {B : Type} (g : A -> bool) (d : B) (pre t : list B) (l : list A) :
  length t = length l ->
  index_select d (pre ++ t) (positions g (length pre) l) =
  map snd (filter (fun x => g (fst x)) (combine l t)).
Proof.
  revert pre t. induction l as [|a l IH]; intros pre [|b t] Hlen; try discriminate.
  - reflexivity.
  - rewrite positions_cons. cbn [combine filter fst].
    assert (Hrec : index_select d (pre ++ b :: t) (positions g (S (length pre)) l) =
                   map snd (filter (fun x => g (fst x)) (combine l t))).
    { replace (pre ++ b :: t) with ((pre ++ [b]) ++ t) by (rewrite <- app_assoc; reflexivity).
      replace (S (length pre)) with (length (pre ++ [b]))
        by (rewrite length_app; cbn; lia).
      apply IH. cbn in Hlen. lia. }
    destruct (g a).
    + cbn [index_select map snd]. f_equal; [|exact Hrec].
      rewrite nth_middle. reflexivity.
    + exact Hrec.
Qed.

End TensorFacts.

Lemma index_select_mask {A B : Type} (g : A -> bool) (d : B) (t : list B) (l : list A) :
  length t = length l ->
  index_select d t (positions g 0 l) =
  map snd (filter (fun x => g (fst x)) (combine l t)).
Proof. intros H. apply (index_select_positions g d [] t l H). Qed.

Lemma indices_terminated_positions target eos_token :
  indices_terminated target eos_token =
  (positions (contains eos_token) 0 target,
   positions (fun t => negb (contains eos_token t)) 0 target).
Proof. reflexivity. Qed.

(** C10: the two lists of [indices_terminated] split the row indices: a
    row index is in the first list exactly when its sentence contains the
    end marker and in the second exactly when it does not, hence in exactly
    one of them; both lists are strictly increasing and together they have
    as many entries as there are rows. *)
Theorem indices_terminated_partition (target : list (list nat)) (eos_token : nat) :
  (forall i, In i (fst (indices_terminated target eos_token)) <->
             i < length target /\ contains eos_token (nth i target []) = true) /\
  (forall i, In i (snd (indices_terminated target eos_token)) <->
             i < length target /\ contains eos_token (nth i target []) = false) /\
  (forall i, i < length target ->
             (In i (fst (indices_terminated target eos_token)) /\
              ~ In i (snd (indices_terminated target eos_token))) \/
             (~ In i (fst (indices_terminated target eos_token)) /\
              In i (snd (indices_terminated target eos_token)))) /\
  StronglySorted lt (fst (indices_terminated target eos_token)) /\
  StronglySorted lt (snd (indices_terminated target eos_token)) /\
  length (fst (indices_terminated target eos_token)) +
  length (snd (indices_terminated target eos_token)) = length target.
Proof.
  rewrite indices_terminated_positions. cbn [fst snd].
  assert (H1 : forall i, In i (positions (contains eos_token) 0 target) <->
                         i < length target /\ contains eos_token (nth i target []) = true).
  { intros i. rewrite (positions_In _ []). rewrite Nat.sub_0_r. cbn. intuition lia. }
  assert (H2 : forall i, In i (positions (fun t => negb (contains eos_token t)) 0 target) <->
                         i < length target /\ contains eos_token (nth i target []) = false).
  { intros i. rewrite (positions_In _ []). rewrite Nat.sub_0_r, negb_true_iff. cbn.
    intuition lia. }
  split; [exact H1|]. split; [exact H2|]. split.
  - intros i Hi. rewrite H1, H2.
    destruct (contains eos_token (nth i target [])); [left | right]; intuition congruence.
  - split; [apply positions_sorted|]. split; [apply positions_sorted|].
    apply positions_length.
Qed.

(* ================================================================= *)
(** ** Sorting and top-k *)


Section OrderFacts.

Variable M : Env.

Hypothesis fleb_total : forall x y : F M, fleb M x y = true \/ fleb M y x = true.
Hypothesis fleb_trans :
  forall x y z : F M, fleb M x y = true -> fleb M y z = true -> fleb M x z = true.

Context {A : Type}.
Variable key : A -> F M.

Lemma insert_desc_perm x l : Permutation (insert_desc M key x l) (x :: l).
Proof.
  induction l as [|y l IH]; cbn; [reflexivity|].
  destruct (fleb M (key y) (key x)); [reflexivity|].
  rewrite IH. apply perm_swap.
Qed.

Lemma sort_desc_perm l : Permutation (sort_desc M key l) l.
Proof.
  induction l as [|x l IH]; cbn; [reflexivity|].
  rewrite insert_desc_perm. apply perm_skip, IH.
Qed.

Lemma sort_desc_length l : length (sort_desc M key l) = length l.
Proof. apply Permutation_length, sort_desc_perm. Qed.

Lemma insert_desc_hd x l a :
  HdRel (desc M key) a l -> desc M key a x -> HdRel (desc M key) a (insert_desc M key x l).
Proof.
  intros Hl Hx. destruct l as [|y l]; cbn.
  - constructor. exact Hx.
  - destruct (fleb M (key y) (key x)); constructor; [exact Hx|].
    inversion Hl; assumption.
Qed.

Lemma insert_desc_sorted x l :
  Sorted (desc M key) l -> Sorted (desc M key) (insert_desc M key x l).
Proof.
  induction 1 as [|y l Hs IH Hhd]; cbn.
  - repeat constructor.
  - destruct (fleb M (key y) (key x)) eqn:E.
    + constructor; [constructor; assumption|]. constructor. exact E.
    + constructor; [exact IH|]. apply insert_desc_hd; [exact Hhd|].
      unfold desc. destruct (fleb_total (key x) (key y)) as [H|H]; [exact H|congruence].
Qed.

Lemma sort_desc_sorted l : Sorted (desc M key) (sort_desc M key l).
Proof.
  induction l as [|x l IH]; cbn; [constructor|].
  apply insert_desc_sorted, IH.
Qed.

Lemma sort_desc_strongly_sorted l : StronglySorted (desc M key) (sort_desc M key l).
Proof.
  apply Sorted_StronglySorted; [|apply sort_desc_sorted].
  intros a b c Hab Hbc. unfold desc in *. eapply fleb_trans; eassumption.
Qed.

End OrderFacts.

Lemma strongly_sorted_app {A : Type} (R : A -> A -> Prop) l1 l2 :
  StronglySorted R (l1 ++ l2) ->
  forall x y, In x l1 -> In y l2 -> R x y.
Proof.
  induction l1 as [|a l1 IH]; intros Hs x y Hx Hy; [destruct Hx|].
  cbn in Hs. inversion Hs as [|? ? Hs' Hall]; subst.
  destruct Hx as [<- | Hx].
  - rewrite Forall_forall in Hall. apply Hall, in_or_app. right. exact Hy.
  - apply IH; assumption.
Qed.

Section SelectionFacts.

Context {A : Type}.

Lemma enumerate_length (l : list A) : length (enumerate l) = length l.
Proof. unfold enumerate. rewrite length_combine, length_seq. lia. Qed.

Lemma enumerate_from_In k (l : list A) i v :
  In (i, v) (combine (seq k (length l)) l) ->
  k <= i /\ nth_error l (i - k) = Some v.
Proof.
  revert k. induction l as [|a l IH]; intros k; cbn; [tauto|].
  intros [H | H].
  - inversion H; subst. rewrite Nat.sub_diag. split; [lia | reflexivity].
  - apply IH in H. destruct H as [H1 H2]. split; [lia|].
    replace (i - k) with (S (i - S k)) by lia. exact H2.
Qed.

Lemma enumerate_In (l : list A) i v :
  In (i, v) (enumerate l) -> nth_error l i = Some v.
Proof.
  intros H. apply enumerate_from_In in H. rewrite Nat.sub_0_r in H. apply H.
Qed.

(** Reading the rows back at the indices of an enumeration. *)
Lemma enumerate_from_rows {B : Type} (d : B) (pre rows : list B) (l : list A) :
  length rows = length l ->
  map (fun iv => (nth (fst iv) (pre ++ rows) d, snd iv))
      (combine (seq (length pre) (length l)) l) = combine rows l.
Proof.
  revert pre rows. induction l as [|a l IH]; intros pre [|r rows] Hlen; try discriminate;
    [reflexivity|].
  cbn [length seq combine map fst snd]. f_equal.
  - rewrite nth_middle. reflexivity.
  - replace (pre ++ r :: rows) with ((pre ++ [r]) ++ rows)
      by (rewrite <- app_assoc; reflexivity).
    replace (S (length pre)) with (length (pre ++ [r])) by (rewrite length_app; cbn; lia).
    apply IH. cbn in Hlen. lia.
Qed.

Lemma enumerate_rows {B : Type} (d : B) (rows : list B) (l : list A) :
  length rows = length l ->
  map (fun iv => (nth (fst iv) rows d, snd iv)) (enumerate l) = combine rows l.
Proof. intros H. apply (enumerate_from_rows d [] rows l H). Qed.

End SelectionFacts.

Section TopkFacts.

Variable M : Env.

Lemma topk_Ret k t vs ids :
  topk M k t = Ret (vs, ids) ->
  k <= length t /\
  vs = map snd (firstn k (sort_desc M snd (enumerate t))) /\
  ids = map fst (firstn k (sort_desc M snd (enumerate t))).
Proof.
  unfold topk. destruct (Nat.leb_spec k (length t)); [|discriminate].
  intros E. inversion E. auto.
Qed.

Lemma topk_length k t vs ids :
  topk M k t = Ret (vs, ids) -> length vs = k /\ length ids = k.
Proof.
  intros H. apply topk_Ret in H. destruct H as (Hk & -> & ->).
  rewrite !length_map, length_firstn, sort_desc_length, enumerate_length. lia.
Qed.

Lemma topk_returns k t :
  k <= length t -> exists top, topk M k t = Ret top.
Proof.
  intros H. unfold topk. destruct (Nat.leb_spec k (length t)); [eauto | lia].
Qed.

Lemma topk_never_out_of_fuel k t : topk M k t <> OutOfFuel.
Proof. unfold topk. destruct (k <=? length t); discriminate. Qed.

(** The hypotheses that a top-k of the likelihoods selects. *)
Lemma topk_hypotheses k (rows : list (list nat)) t vs ids :
  length rows = length t ->
  topk M k t = Ret (vs, ids) ->
  combine (index_select [] rows ids) vs =
  map (fun iv => (nth (fst iv) rows [], snd iv)) (firstn k (sort_desc M snd (enumerate t))).
Proof.
  intros Hlen H. apply topk_Ret in H. destruct H as (_ & -> & ->).
  unfold index_select. generalize (firstn k (sort_desc M snd (enumerate t))).
  induction l as [|[i v] l IH]; cbn; [reflexivity | f_equal; exact IH].
Qed.

End TopkFacts.

Section TrimFacts.

Variable M : Env.

Hypothesis fleb_total : forall x y : F M, fleb M x y = true \/ fleb M y x = true.
Hypothesis fleb_trans :
  forall x y z : F M, fleb M x y = true -> fleb M y z = true -> fleb M x z = true.

Lemma beam_trim_size max_target (m p : pool M) :
  beam_trim M max_target m = Ret p ->
  length (tgt_tokens m) = length (target_probs m) ->
  n_tokens p = n_tokens m /\
  length (tgt_tokens p) = length (target_probs p) /\
  length (target_probs p) <= max_target.
Proof.
  unfold beam_trim. intros H Hlen.
  destruct (Nat.leb_spec (length (target_probs m)) max_target) as [Hle | Hlt].
  - inversion H; subst. auto.
  - destruct (topk M max_target (target_probs m)) as [[vs ids]| |] eqn:E; try discriminate.
    cbn in H. inversion H; subst; clear H. cbn.
    apply topk_length in E. destruct E as [E1 E2].
    unfold index_select. rewrite length_map. repeat split; lia.
Qed.

Lemma beam_trim_keep max_target (m p : pool M) :
  beam_trim M max_target m = Ret p ->
  length (target_probs m) <= max_target -> p = m.
Proof.
  unfold beam_trim. intros H Hle.
  destruct (Nat.leb_spec (length (target_probs m)) max_target); [|lia].
  inversion H. reflexivity.
Qed.

Lemma beam_trim_top max_target (m p : pool M) :
  beam_trim M max_target m = Ret p ->
  length (tgt_tokens m) = length (target_probs m) ->
  max_target < length (target_probs m) ->
  exists dropped,
    Permutation (hypotheses m) (hypotheses p ++ dropped) /\
    length (hypotheses p) = max_target /\
    forall r d, In r (hypotheses p) -> In d dropped -> fleb M (snd d) (snd r) = true.
Proof.
  unfold beam_trim. intros H Hlen Hlt.
  destruct (Nat.leb_spec (length (target_probs m)) max_target); [lia|].
  destruct (topk M max_target (target_probs m)) as [[vs ids]| |] eqn:E; try discriminate.
  cbn [bind fst snd] in H. inversion H; subst; clear H.
  unfold hypotheses. cbn [tgt_tokens target_probs].
  rewrite (topk_hypotheses M max_target (tgt_tokens m) (target_probs m) vs ids Hlen E).
  set (sorted := sort_desc M snd (enumerate (target_probs m))).
  set (h := fun iv : nat * F M => (nth (fst iv) (tgt_tokens m) [], snd iv)).
  exists (map h (skipn max_target sorted)). split; [|split].
  - rewrite <- map_app, firstn_skipn.
    rewrite <- (enumerate_rows [] (tgt_tokens m) (target_probs m) Hlen).
    apply Permutation_map. symmetry. apply sort_desc_perm.
  - rewrite length_map, length_firstn. unfold sorted.
    rewrite sort_desc_length, enumerate_length. lia.
  - intros r d Hr Hd. apply in_map_iff in Hr, Hd.
    destruct Hr as (x & <- & Hx), Hd as (y & <- & Hy). cbn.
    assert (Hs : StronglySorted (desc M snd) (firstn max_target sorted ++ skipn max_target sorted)).
    { rewrite firstn_skipn. apply sort_desc_strongly_sorted; assumption. }
    exact (strongly_sorted_app _ _ _ Hs x y Hx Hy).
Qed.

End TrimFacts.

(* ================================================================= *)
(** ** One turn of the loop *)


Section MonadFacts.

Context {A B : Type}.
Variable f : A -> run B.

Lemma mapM_cons_Ret a l bs :
  mapM f (a :: l) = Ret bs ->
  exists b bs', f a = Ret b /\ mapM f l = Ret bs' /\ bs = b :: bs'.
Proof.
  cbn. destruct (f a) as [b| |]; cbn; try discriminate.
  destruct (mapM f l) as [bs'| |]; cbn; try discriminate.
  intros H. inversion H. eauto.
Qed.

Lemma mapM_Forall2 l bs :
  mapM f l = Ret bs -> Forall2 (fun a b => f a = Ret b) l bs.
Proof.
  revert bs. induction l as [|a l IH]; intros bs H.
  - inversion H. constructor.
  - apply mapM_cons_Ret in H. destruct H as (b & bs' & Hb & Hbs & ->).
    constructor; auto.
Qed.

Lemma mapM_length l bs : mapM f l = Ret bs -> length bs = length l.
Proof. intros H. apply mapM_Forall2 in H. symmetry. eapply Forall2_length; eauto. Qed.

Lemma mapM_returns l :
  (forall a, In a l -> exists b, f a = Ret b) -> exists bs, mapM f l = Ret bs.
Proof.
  induction l as [|a l IH]; intros H; [eexists; reflexivity|].
  destruct (H a (or_introl eq_refl)) as [b Hb].
  destruct IH as [bs Hbs]; [intros; apply H; right; assumption|].
  exists (b :: bs). cbn. rewrite Hb. cbn. rewrite Hbs. reflexivity.
Qed.

Lemma mapM_never_out_of_fuel l :
  (forall a, f a <> OutOfFuel) -> mapM f l <> OutOfFuel.
Proof.
  intros H. induction l as [|a l IH]; cbn; [discriminate|].
  specialize (H a). destruct (f a); cbn; try congruence.
  destruct (mapM f l); cbn; congruence.
Qed.

End MonadFacts.

Section KeptFacts.

Context {A B : Type}.
Variable g : A -> bool.

Lemma kept_cons a l (b : B) t :
  kept g (a :: l) (b :: t) = if g a then b :: kept g l t else kept g l t.
Proof. unfold kept. cbn. destruct (g a); reflexivity. Qed.

Lemma kept_length l (t : list B) :
  length t = length l -> length (kept g l t) = length (filter g l).
Proof.
  revert t. induction l as [|a l IH]; intros [|b t] H; try discriminate; [reflexivity|].
  rewrite kept_cons. cbn [filter]. destruct (g a); cbn [length]; rewrite IH; auto.
Qed.

Lemma kept_In l (t : list B) b : In b (kept g l t) -> In b t.
Proof.
  unfold kept. intros H. apply in_map_iff in H. destruct H as ([a b'] & <- & H).
  apply filter_In in H. destruct H as [H _]. apply in_combine_r in H. exact H.
Qed.

End KeptFacts.

Section MergeFacts.

Variable M : Env.
Variable src_tokens : list nat.
Variable beam_width : nat.


(** The loop body up to the grouping, with the index selections read as
    selections by the mask of the terminated rows. *)
Lemma beam_merge_Ret (p m : pool M) :
  aligned p ->
  beam_merge M src_tokens beam_width p = Ret m ->
  exists tops,
    mapM (beams_of M src_tokens beam_width) (tgt_tokens p) = Ret tops /\
    n_tokens m = S (n_tokens p) /\
    tgt_tokens m =
      append_beams (kept (active M) (tgt_tokens p) (tgt_tokens p))
                   (kept (active M) (tgt_tokens p) (map snd tops)) ++
      map (fun row => row ++ [0]) (kept (terminated M) (tgt_tokens p) (tgt_tokens p)) /\
    target_probs m =
      mul_rows M (repeat_interleave (kept (active M) (tgt_tokens p) (target_probs p))
                                    beam_width)
                 (concat (kept (active M) (tgt_tokens p) (map fst tops))) ++
      map (fun l => fmul M l (fdecay M))
          (kept (terminated M) (tgt_tokens p) (target_probs p)).
Proof.
  unfold aligned, beam_merge. intros Hal H. fold (beams_of M src_tokens beam_width) in H.
  destruct (mapM (beams_of M src_tokens beam_width) (tgt_tokens p)) as [tops| |] eqn:E; try discriminate.
  exists tops. split; [reflexivity|].
  pose proof (mapM_length _ _ _ E) as Hlen.
  cbn [bind] in H. rewrite indices_terminated_positions in H. cbn [fst snd] in H.
  rewrite !index_select_mask in H
    by (rewrite ?length_map; congruence).
  inversion H; subst; clear H. cbn. auto.
Qed.

Lemma beam_merge_never_out_of_fuel (p : pool M) :
  beam_merge M src_tokens beam_width p <> OutOfFuel.
Proof.
  unfold beam_merge.
  pose proof (mapM_never_out_of_fuel
                (fun row => topk M beam_width (softmax M (model M src_tokens row)))
                (tgt_tokens p) (fun row => topk_never_out_of_fuel M _ _)) as H.
  destruct (mapM _ (tgt_tokens p)); cbn; congruence.
Qed.

End MergeFacts.

Section ExpandFacts.

Variable M : Env.
Variable k : nat.


Lemma mul_rows_app a1 a2 b1 b2 :
  length a1 = length b1 ->
  mul_rows M (a1 ++ a2) (b1 ++ b2) = mul_rows M a1 b1 ++ mul_rows M a2 b2.
Proof.
  intros H. unfold mul_rows. rewrite <- map_app. f_equal.
  revert b1 H. induction a1 as [|x a1 IH]; intros [|y b1] H; try discriminate;
    [reflexivity|].
  cbn. f_equal. apply IH. cbn in H. lia.
Qed.

Lemma mul_rows_length a b : length a = length b -> length (mul_rows M a b) = length a.
Proof. intros H. unfold mul_rows. rewrite length_map, length_combine. lia. Qed.

Lemma mul_rows_repeat_nth l ps j c :
  length ps = k -> nth_error ps j = Some c ->
  nth_error (mul_rows M (repeat l k) ps) j = Some (fmul M l c).
Proof.
  intros <-. revert j. induction ps as [|x ps IH]; intros [|j] H; try discriminate.
  - inversion H. reflexivity.
  - cbn. apply IH. exact H.
Qed.

(** Row by row, the children of the active sentences and their
    likelihoods. *)
Lemma expand_cons_active row rows lik lp top tops :
  active M row = true -> full M k top ->
  append_beams (kept (active M) (row :: rows) (row :: rows))
               (kept (active M) (row :: rows) (map snd (top :: tops))) =
    map (fun b => row ++ [b]) (snd top) ++
    append_beams (kept (active M) rows rows) (kept (active M) rows (map snd tops)) /\
  mul_rows M (repeat_interleave (kept (active M) (row :: rows) (lik :: lp)) k)
             (concat (kept (active M) (row :: rows) (map fst (top :: tops)))) =
    mul_rows M (repeat lik k) (fst top) ++
    mul_rows M (repeat_interleave (kept (active M) rows lp) k)
               (concat (kept (active M) rows (map fst tops))).
Proof.
  intros Ha [Hf1 Hf2]. cbn [map]. rewrite !kept_cons, Ha. split.
  - reflexivity.
  - unfold repeat_interleave. cbn [flat_map concat].
    apply mul_rows_app. rewrite repeat_length. congruence.
Qed.

Lemma expand_cons_terminated row rows lik lp top tops :
  active M row = false ->
  append_beams (kept (active M) (row :: rows) (row :: rows))
               (kept (active M) (row :: rows) (map snd (top :: tops))) =
    append_beams (kept (active M) rows rows) (kept (active M) rows (map snd tops)) /\
  mul_rows M (repeat_interleave (kept (active M) (row :: rows) (lik :: lp)) k)
             (concat (kept (active M) (row :: rows) (map fst (top :: tops)))) =
    mul_rows M (repeat_interleave (kept (active M) rows lp) k)
               (concat (kept (active M) rows (map fst tops))).
Proof.
  intros Ha. cbn [map]. rewrite !kept_cons, Ha. split; reflexivity.
Qed.

Lemma expand_children rows : forall lp tops i row lik ps ts j t c,
  length lp = length rows -> length tops = length rows -> Forall (full M k) tops ->
  nth_error rows i = Some row -> nth_error lp i = Some lik ->
  nth_error tops i = Some (ps, ts) ->
  active M row = true ->
  nth_error ts j = Some t -> nth_error ps j = Some c ->
  exists q,
    nth_error (append_beams (kept (active M) rows rows)
                            (kept (active M) rows (map snd tops))) q
      = Some (row ++ [t]) /\
    nth_error (mul_rows M (repeat_interleave (kept (active M) rows lp) k)
                          (concat (kept (active M) rows (map fst tops)))) q
      = Some (fmul M lik c).
Proof.
  induction rows as [|r rows IH];
    intros [|l lp] [|top tops] i row lik ps ts j t c Hlp Htops Hfull Hrow Hlik Htop
           Hact Ht Hc; try discriminate.
  - destruct i; discriminate.
  - inversion Hfull as [|? ? Hf Hfull']; subst.
    destruct i as [|i].
    + cbn in Hrow, Hlik, Htop. inversion Hrow; inversion Hlik; inversion Htop; subst.
      destruct (expand_cons_active row rows lik lp (ps, ts) tops Hact Hf) as [-> ->].
      destruct Hf as [Hf1 Hf2]. cbn [fst snd] in *.
      exists j. split.
      * rewrite nth_error_app1
          by (rewrite length_map; apply nth_error_Some; congruence).
        rewrite nth_error_map, Ht. reflexivity.
      * rewrite nth_error_app1.
        -- apply mul_rows_repeat_nth; assumption.
        -- rewrite mul_rows_length by (rewrite repeat_length; congruence).
           rewrite repeat_length, <- Hf1. apply nth_error_Some. congruence.
    + cbn in Hrow, Hlik, Htop. cbn in Hlp, Htops.
      destruct (IH lp tops i row lik ps ts j t c) as (q & Hq1 & Hq2);
        try assumption; try lia.
      destruct (active M r) eqn:Har.
      * destruct (expand_cons_active r rows l lp top tops Har Hf) as [-> ->].
        destruct Hf as [Hf1 Hf2].
        exists (k + q). split.
        -- rewrite nth_error_app2 by (rewrite length_map; lia).
           rewrite length_map, Hf2. replace (k + q - k) with q by lia. exact Hq1.
        -- rewrite nth_error_app2
             by (rewrite mul_rows_length, repeat_length
                   by (rewrite repeat_length; congruence); lia).
           rewrite mul_rows_length, repeat_length by (rewrite repeat_length; congruence).
           replace (k + q - k) with q by lia. exact Hq2.
      * destruct (expand_cons_terminated r rows l lp top tops Har) as [-> ->].
        exists q. split; assumption.
Qed.

Lemma expand_length rows : forall lp tops,
  length lp = length rows -> length tops = length rows -> Forall (full M k) tops ->
  length (append_beams (kept (active M) rows rows)
                       (kept (active M) rows (map snd tops))) =
    k * length (filter (active M) rows) /\
  length (mul_rows M (repeat_interleave (kept (active M) rows lp) k)
                     (concat (kept (active M) rows (map fst tops)))) =
    k * length (filter (active M) rows).
Proof.
  induction rows as [|r rows IH]; intros [|l lp] [|top tops] Hlp Htops Hfull;
    try discriminate.
  - cbn. split; lia.
  - inversion Hfull as [|? ? Hf Hfull']; subst. cbn in Hlp, Htops.
    destruct (IH lp tops) as [IH1 IH2]; try assumption; try lia.
    cbn [filter]. destruct (active M r) eqn:Har.
    + destruct (expand_cons_active r rows l lp top tops Har Hf) as [-> ->].
      destruct Hf as [Hf1 Hf2].
      rewrite !length_app, length_map, IH1, IH2.
      rewrite mul_rows_length, repeat_length by (rewrite repeat_length; congruence).
      cbn [length]. split; lia.
    + destruct (expand_cons_terminated r rows l lp top tops Har) as [-> ->].
      split; assumption.
Qed.

(** The rows of the children: a row of the pool with one more token. *)
Lemma expand_rows_In rows (tops : list (list (F M) * list nat)) child :
  In child (append_beams (kept (active M) rows rows)
                         (kept (active M) rows (map snd tops))) ->
  exists row b, In row rows /\ child = row ++ [b].
Proof.
  unfold append_beams. intros H. apply in_flat_map in H.
  destruct H as ([row beams] & Hin & H). cbn in H.
  apply in_map_iff in H. destruct H as (b & <- & _).
  apply in_combine_l in Hin. apply kept_In in Hin. eauto.
Qed.

(** The terminated sentences: one more token [0], likelihood times the
    decay. *)
Lemma terminated_carried rows : forall lp i row lik,
  length lp = length rows ->
  nth_error rows i = Some row -> nth_error lp i = Some lik ->
  terminated M row = true ->
  exists q,
    nth_error (map (fun row => row ++ [0]) (kept (terminated M) rows rows)) q
      = Some (row ++ [0]) /\
    nth_error (map (fun l => fmul M l (fdecay M)) (kept (terminated M) rows lp)) q
      = Some (fmul M lik (fdecay M)).
Proof.
  induction rows as [|r rows IH]; intros [|l lp] i row lik Hlp Hrow Hlik Ht;
    try discriminate.
  - destruct i; discriminate.
  - rewrite !kept_cons. destruct i as [|i].
    + cbn in Hrow, Hlik. inversion Hrow; inversion Hlik; subst. rewrite Ht.
      exists 0. split; reflexivity.
    + cbn in Hrow, Hlik, Hlp.
      destruct (IH lp i row lik) as (q & Hq1 & Hq2); try assumption; try lia.
      destruct (terminated M r); [exists (S q) | exists q]; split; assumption.
Qed.

End ExpandFacts.

Lemma In_firstn {A : Type} n (l : list A) x : In x (firstn n l) -> In x l.
Proof.
  intros H. rewrite <- (firstn_skipn n l). apply in_or_app. left. exact H.
Qed.

Section StepFacts.

Variable M : Env.
Variable src_tokens : list nat.
Variables beam_width max_target : nat.

Lemma beams_full rows tops :
  mapM (beams_of M src_tokens beam_width) rows = Ret tops ->
  Forall (full M beam_width) tops.
Proof.
  intros H. apply mapM_Forall2 in H.
  induction H as [|row [ps ts] rows tops Hrow _ IH]; constructor; [|exact IH].
  apply topk_length in Hrow. exact Hrow.
Qed.

Lemma beam_merge_shape (p m : pool M) :
  aligned p ->
  beam_merge M src_tokens beam_width p = Ret m ->
  n_tokens m = S (n_tokens p) /\ aligned m /\ (rectangular p -> rectangular m).
Proof.
  intros Hal H. pose proof Hal as Hal'. unfold aligned in Hal'.
  destruct (beam_merge_Ret M src_tokens beam_width p m Hal H)
    as (tops & Htops & Hn & Hrows & Hprobs).
  pose proof (mapM_length _ _ _ Htops) as Hlen.
  pose proof (beams_full _ _ Htops) as Hfull.
  destruct (expand_length M beam_width (tgt_tokens p) (target_probs p) tops)
    as [Hl1 Hl2]; try congruence.
  split; [exact Hn|]. split.
  - unfold aligned. rewrite Hrows, Hprobs, !length_app, Hl1, Hl2, !length_map.
    rewrite !kept_length by congruence. reflexivity.
  - unfold rectangular. rewrite Hn, Hrows. intros Hrect.
    rewrite Forall_forall in Hrect. apply Forall_forall. intros row Hin.
    apply in_app_or in Hin. destruct Hin as [Hin | Hin].
    + apply expand_rows_In in Hin. destruct Hin as (r & b & Hr & ->).
      rewrite length_app, (Hrect r Hr). cbn. lia.
    + apply in_map_iff in Hin. destruct Hin as (r & <- & Hr).
      apply kept_In in Hr. rewrite length_app, (Hrect r Hr). cbn. lia.
Qed.

Lemma topk_index_In k (rows : list (list nat)) t vs ids row :
  length rows = length t ->
  topk M k t = Ret (vs, ids) ->
  In row (index_select [] rows ids) -> In row rows.
Proof.
  intros Hlen H Hin. apply topk_Ret in H. destruct H as (_ & _ & ->).
  unfold index_select in Hin. rewrite map_map in Hin.
  apply in_map_iff in Hin. destruct Hin as ([i v] & <- & Hiv). cbn [fst].
  apply In_firstn in Hiv.
  apply (Permutation_in _ (sort_desc_perm M snd (enumerate t))) in Hiv.
  apply enumerate_In in Hiv.
  apply nth_In. rewrite Hlen. apply nth_error_Some. congruence.
Qed.

Lemma beam_trim_shape (m p : pool M) :
  aligned m ->
  beam_trim M max_target m = Ret p ->
  n_tokens p = n_tokens m /\ aligned p /\ (rectangular m -> rectangular p).
Proof.
  intros Hal H.
  destruct (beam_trim_size M max_target m p H Hal) as (Hn & Hal' & _).
  split; [exact Hn|]. split; [exact Hal'|].
  unfold rectangular. rewrite Hn. intros Hrect.
  rewrite Forall_forall in Hrect. apply Forall_forall. intros row Hin.
  apply Hrect. revert H Hin. unfold beam_trim.
  destruct (length (target_probs m) <=? max_target).
  - intros H. inversion H. auto.
  - destruct (topk M max_target (target_probs m)) as [[vs ids]| |] eqn:E; try discriminate.
    cbn [bind fst snd]. intros H Hin. inversion H; subst. cbn in Hin.
    eapply topk_index_In; eauto.
Qed.

Lemma beam_trim_never_out_of_fuel (m : pool M) :
  beam_trim M max_target m <> OutOfFuel.
Proof.
  unfold beam_trim. destruct (length (target_probs m) <=? max_target); [discriminate|].
  pose proof (topk_never_out_of_fuel M max_target (target_probs m)).
  destruct (topk M max_target (target_probs m)); cbn; congruence.
Qed.

Lemma beam_step_Ret (p p' : pool M) :
  beam_step M src_tokens beam_width max_target p = Ret p' ->
  exists m, beam_merge M src_tokens beam_width p = Ret m /\
            beam_trim M max_target m = Ret p'.
Proof.
  unfold beam_step.
  destruct (beam_merge M src_tokens beam_width p) as [m| |]; try discriminate.
  eauto.
Qed.

Lemma beam_step_shape (p p' : pool M) :
  aligned p ->
  beam_step M src_tokens beam_width max_target p = Ret p' ->
  n_tokens p' = S (n_tokens p) /\ aligned p' /\ (rectangular p -> rectangular p').
Proof.
  intros Hal H. apply beam_step_Ret in H. destruct H as (m & Hm & Ht).
  destruct (beam_merge_shape p m Hal Hm) as (Hn & Hal' & Hr).
  destruct (beam_trim_shape m p' Hal' Ht) as (Hn' & Hal'' & Hr').
  split; [congruence|]. split; [exact Hal''|]. auto.
Qed.

Lemma beam_step_never_out_of_fuel (p : pool M) :
  beam_step M src_tokens beam_width max_target p <> OutOfFuel.
Proof.
  unfold beam_step.
  pose proof (beam_merge_never_out_of_fuel M src_tokens beam_width p).
  destruct (beam_merge M src_tokens beam_width p) as [m| |]; cbn; try congruence.
  apply beam_trim_never_out_of_fuel.
Qed.

Lemma beam_merge_returns (p : pool M) :
  (forall row, beam_width <= length (softmax M (model M src_tokens row))) ->
  exists m, beam_merge M src_tokens beam_width p = Ret m.
Proof.
  intros Hwide.
  destruct (mapM_returns (beams_of M src_tokens beam_width) (tgt_tokens p)) as [tops Htops].
  { intros row _. apply topk_returns, Hwide. }
  unfold beam_merge. unfold beams_of in Htops. rewrite Htops. cbn [bind].
  eexists. reflexivity.
Qed.

Lemma beam_trim_returns (m : pool M) : exists p, beam_trim M max_target m = Ret p.
Proof.
  unfold beam_trim.
  destruct (Nat.leb_spec (length (target_probs m)) max_target) as [Hle | Hlt]; [eauto|].
  destruct (topk_returns M max_target (target_probs m)) as [top Htop]; [lia|].
  rewrite Htop. cbn [bind]. eauto.
Qed.

Lemma beam_step_returns (p : pool M) :
  (forall row, beam_width <= length (softmax M (model M src_tokens row))) ->
  exists p', beam_step M src_tokens beam_width max_target p = Ret p'.
Proof.
  intros Hwide. destruct (beam_merge_returns p Hwide) as [m Hm].
  unfold beam_step. rewrite Hm. cbn [bind]. apply beam_trim_returns.
Qed.

Variable max_sentence_length : Z.

(** The loop ends within [max_sentence_length - n_tokens] turns. *)
Lemma beam_loop_enough_fuel fuel : forall p : pool M,
  aligned p ->
  (max_sentence_length - Z.of_nat (n_tokens p) <= Z.of_nat fuel)%Z ->
  beam_loop M src_tokens beam_width max_target max_sentence_length fuel p <> OutOfFuel.
Proof.
  induction fuel as [|fuel IH]; intros p Hal Hfuel; cbn [beam_loop].
  - destruct (Z.ltb_spec (Z.of_nat (n_tokens p)) max_sentence_length) as [Hlt | Hge];
      [lia | discriminate].
  - destruct (Z.ltb_spec (Z.of_nat (n_tokens p)) max_sentence_length) as [Hlt | Hge];
      [|discriminate].
    pose proof (beam_step_never_out_of_fuel p) as Hs.
    destruct (beam_step M src_tokens beam_width max_target p) as [p'| |] eqn:E;
      cbn [bind]; try congruence.
    destruct (beam_step_shape p p' Hal E) as (Hn & Hal' & _).
    apply IH; [exact Hal'|]. rewrite Hn. lia.
Qed.

(** Top-k is the only call of the loop that can raise. *)
Lemma beam_loop_never_raises fuel : forall p : pool M,
  (forall row, beam_width <= length (softmax M (model M src_tokens row))) ->
  beam_loop M src_tokens beam_width max_target max_sentence_length fuel p <> Raised.
Proof.
  induction fuel as [|fuel IH]; intros p Hwide; cbn [beam_loop];
    destruct (Z.of_nat (n_tokens p) <? max_sentence_length)%Z; try discriminate.
  destruct (beam_step_returns p Hwide) as [p' Hp']. rewrite Hp'. cbn [bind].
  apply IH, Hwide.
Qed.

(** What holds of the pool the loop ends with. *)
Lemma beam_loop_Ret fuel : forall p p' : pool M,
  aligned p -> rectangular p ->
  beam_loop M src_tokens beam_width max_target max_sentence_length fuel p = Ret p' ->
  aligned p' /\ rectangular p' /\
  (max_sentence_length <= Z.of_nat (n_tokens p'))%Z /\
  (n_tokens p' = n_tokens p \/ Z.of_nat (n_tokens p') = max_sentence_length).
Proof.
  induction fuel as [|fuel IH]; intros p p' Hal Hrect; cbn [beam_loop].
  - destruct (Z.ltb_spec (Z.of_nat (n_tokens p)) max_sentence_length) as [Hlt | Hge];
      [discriminate|].
    intros H. inversion H; subst. auto.
  - destruct (Z.ltb_spec (Z.of_nat (n_tokens p)) max_sentence_length) as [Hlt | Hge].
    + destruct (beam_step M src_tokens beam_width max_target p) as [p1| |] eqn:E;
        cbn [bind]; try discriminate.
      destruct (beam_step_shape p p1 Hal E) as (Hn & Hal' & Hr).
      intros H. destruct (IH p1 p' Hal' (Hr Hrect) H) as (H1 & H2 & H3 & H4).
      split; [exact H1|]. split; [exact H2|]. split; [exact H3|].
      right. destruct H4 as [H4 | H4]; [|exact H4]. lia.
    + intros H. inversion H; subst. auto.
Qed.

End StepFacts.

(* ================================================================= *)
(** ** The loop and the returned list *)

Section DecodeFacts.

Variable M : Env.
Variable source : string.
Variables beam_width max_target : nat.
Variable max_sentence_length : Z.

Lemma beam_init_shape : aligned (beam_init M) /\ rectangular (beam_init M).
Proof. split; [reflexivity|]. repeat constructor. Qed.

Lemma visited_shape (p : pool M) :
  visited M source beam_width max_target max_sentence_length p ->
  aligned p /\ rectangular p /\
  (Z.of_nat (n_tokens p) <= Z.max 1 max_sentence_length)%Z.
Proof.
  induction 1 as [|p p' Hv (Hal & Hrect & Hn) Hlt Hstep].
  - destruct beam_init_shape. repeat split; auto. cbn. lia.
  - destruct (beam_step_shape _ _ _ _ p p' Hal Hstep) as (Hn' & Hal' & Hr).
    repeat split; auto. lia.
Qed.

Lemma beam_loop_visited fuel : forall p p' : pool M,
  visited M source beam_width max_target max_sentence_length p ->
  beam_loop M (beam_source M source) beam_width max_target max_sentence_length fuel p
    = Ret p' ->
  visited M source beam_width max_target max_sentence_length p'.
Proof.
  induction fuel as [|fuel IH]; intros p p' Hv; cbn [beam_loop].
  - destruct (Z.ltb_spec (Z.of_nat (n_tokens p)) max_sentence_length) as [Hlt | Hge];
      [discriminate|].
    intros H. inversion H; subst. exact Hv.
  - destruct (Z.ltb_spec (Z.of_nat (n_tokens p)) max_sentence_length) as [Hlt | Hge].
    + destruct (beam_step M (beam_source M source) beam_width max_target p)
        as [p1| |] eqn:E; cbn [bind]; try discriminate.
      apply IH. eapply visited_step; eauto.
    + intros H. inversion H; subst. exact Hv.
Qed.

Lemma beam_final_visited (p : pool M) :
  beam_final M source beam_width max_target max_sentence_length = Ret p ->
  visited M source beam_width max_target max_sentence_length p.
Proof. apply beam_loop_visited. constructor. Qed.

Lemma lookup_tokens_never_out_of_fuel itos l : lookup_tokens itos l <> OutOfFuel.
Proof.
  apply mapM_never_out_of_fuel. intros i. unfold lookup_token.
  destruct (nth_error itos i); discriminate.
Qed.

Lemma beam_sentences_never_out_of_fuel (p : pool M) :
  beam_sentences M p <> OutOfFuel.
Proof.
  unfold beam_sentences.
  assert (H : mapM (sentence_of M) (tgt_tokens p) <> OutOfFuel).
  { apply mapM_never_out_of_fuel. intros row. unfold sentence_of.
    pose proof (lookup_tokens_never_out_of_fuel (tgt_vocab M) (sentence_tokens M row)).
    destruct (lookup_tokens (tgt_vocab M) (sentence_tokens M row)); cbn; congruence. }
  destruct (mapM (sentence_of M) (tgt_tokens p)); cbn; congruence.
Qed.

Lemma takewhile_length {A : Type} (f : A -> bool) l :
  length (takewhile f l) <= length l.
Proof.
  induction l as [|a l IH]; cbn; [lia|]. destruct (f a); cbn; lia.
Qed.

Lemma sentence_tokens_length row :
  length (sentence_tokens M row) <= length row - 1.
Proof.
  unfold sentence_tokens. etransitivity; [apply takewhile_length|].
  destruct row; cbn; lia.
Qed.

(** C6: with [max_sentence_length >= 2] the loop of [beam_search] ends
    within [max_sentence_length - 1] turns, hence within
    [max_sentence_length]: the call never lacks fuel, and the loop returns
    a pool whenever the network scores at least [beam_width] tokens (top-k
    raises otherwise); every turn makes the rows one token longer and no
    row gets longer than [max_sentence_length]; every row of the final
    pool has [max_sentence_length] tokens and every returned sequence
    fewer. *)
Theorem beam_search_terminates :
  (2 <= max_sentence_length)%Z ->
  (forall fuel, Z.to_nat max_sentence_length - 1 <= fuel ->
     beam_loop M (beam_source M source) beam_width max_target max_sentence_length
               fuel (beam_init M) <> OutOfFuel) /\
  beam_search M source beam_width max_target max_sentence_length <> OutOfFuel /\
  ((forall row,
      beam_width <= length (softmax M (model M (beam_source M source) row))) ->
   exists p, beam_final M source beam_width max_target max_sentence_length = Ret p) /\
  (forall p p',
     visited M source beam_width max_target max_sentence_length p ->
     (Z.of_nat (n_tokens p) < max_sentence_length)%Z ->
     beam_step M (beam_source M source) beam_width max_target p = Ret p' ->
     n_tokens p' = S (n_tokens p) /\
     (Z.of_nat (n_tokens p') <= max_sentence_length)%Z /\
     Forall (fun row => length row = n_tokens p') (tgt_tokens p')) /\
  (forall p,
     beam_final M source beam_width max_target max_sentence_length = Ret p ->
     Forall (fun row => Z.of_nat (length row) = max_sentence_length /\
                        (Z.of_nat (length (sentence_tokens M row)) < max_sentence_length)%Z)
            (tgt_tokens p)).
Proof.
  intros HL.
  assert (Hfuel : forall fuel, Z.to_nat max_sentence_length - 1 <= fuel ->
            beam_loop M (beam_source M source) beam_width max_target max_sentence_length
                      fuel (beam_init M) <> OutOfFuel).
  { intros fuel Hf. apply beam_loop_enough_fuel; [apply beam_init_shape|]. cbn. lia. }
  split; [exact Hfuel|]. split; [|split; [|split]].
  - unfold beam_search, beam_final.
    specialize (Hfuel (Z.to_nat max_sentence_length) ltac:(lia)).
    destruct (beam_loop M (beam_source M source) beam_width max_target
                        max_sentence_length (Z.to_nat max_sentence_length) (beam_init M));
      cbn [bind]; try congruence.
    apply beam_sentences_never_out_of_fuel.
  - intros Hwide. unfold beam_final.
    specialize (Hfuel (Z.to_nat max_sentence_length) ltac:(lia)).
    pose proof (beam_loop_never_raises M (beam_source M source) beam_width max_target
                  max_sentence_length (Z.to_nat max_sentence_length) (beam_init M) Hwide)
      as Hraise.
    destruct (beam_loop M (beam_source M source) beam_width max_target
                        max_sentence_length (Z.to_nat max_sentence_length) (beam_init M));
      [eauto | congruence | congruence].
  - intros p p' Hv Hlt Hstep.
    destruct (visited_shape p Hv) as (Hal & Hrect & _).
    destruct (beam_step_shape _ _ _ _ p p' Hal Hstep) as (Hn & _ & Hr).
    split; [exact Hn|]. split; [lia|]. apply Hr, Hrect.
  - intros p Hp. pose proof (beam_final_visited p Hp) as Hv.
    destruct (visited_shape p Hv) as (_ & _ & Hmax).
    unfold beam_final in Hp.
    destruct (beam_loop_Ret _ _ _ _ _ _ _ _ (proj1 beam_init_shape) (proj2 beam_init_shape) Hp)
      as (_ & Hrect & Hge & _).
    unfold rectangular in Hrect. rewrite Forall_forall in Hrect.
    apply Forall_forall. intros row Hrow.
    pose proof (sentence_tokens_length row). rewrite (Hrect row Hrow) in *.
    split; lia.
Qed.

End DecodeFacts.

Lemma Forall2_nth_l {A B : Type} (R : A -> B -> Prop) l1 l2 :
  Forall2 R l1 l2 ->
  forall i a, nth_error l1 i = Some a -> exists b, nth_error l2 i = Some b /\ R a b.
Proof.
  induction 1 as [|x y l1 l2 Hxy _ IH]; intros [|i] a Ha; try discriminate.
  - inversion Ha; subst. exists y. split; [reflexivity | exact Hxy].
  - apply IH. exact Ha.
Qed.

Section PoolFacts.

Variable M : Env.
Variable source : string.
Variables beam_width max_target : nat.
Variable max_sentence_length : Z.

Hypothesis fleb_total : forall x y : F M, fleb M x y = true \/ fleb M y x = true.
Hypothesis fleb_trans :
  forall x y z : F M, fleb M x y = true -> fleb M y z = true -> fleb M x z = true.

(** C2: in every pool the loop goes through, an active sentence [row] of
    likelihood [lik] has [beam_width] candidates, and for the [j]-th of
    them, token [t] of probability [c], the grouped pool holds at one and
    the same position [q] the sentence [row ++ [t]] and the likelihood
    [lik * c]. *)
Theorem beam_merge_children (p m : pool M) i row lik j :
  visited M source beam_width max_target max_sentence_length p ->
  beam_merge M (beam_source M source) beam_width p = Ret m ->
  nth_error (tgt_tokens p) i = Some row ->
  nth_error (target_probs p) i = Some lik ->
  contains (EOS_IDX M) row = false ->
  j < beam_width ->
  exists ps ts t c q,
    topk M beam_width (softmax M (model M (beam_source M source) row)) = Ret (ps, ts) /\
    nth_error ts j = Some t /\ nth_error ps j = Some c /\
    nth_error (tgt_tokens m) q = Some (row ++ [t]) /\
    nth_error (target_probs m) q = Some (fmul M lik c).
Proof.
  intros Hv Hm Hrow Hlik Hact Hj.
  destruct (visited_shape M source beam_width max_target max_sentence_length p Hv)
    as (Hal & _ & _).
  destruct (beam_merge_Ret M _ _ p m Hal Hm) as (tops & Htops & _ & Hrows & Hprobs).
  pose proof (mapM_length _ _ _ Htops) as Hlen.
  pose proof (beams_full _ _ _ _ _ Htops) as Hfull.
  pose proof (mapM_Forall2 _ _ _ Htops) as Hall.
  destruct (Forall2_nth_l _ _ _ Hall _ _ Hrow) as ([ps ts] & Htop & Hbeams).
  unfold beams_of in Hbeams.
  assert (Hf : full M beam_width (ps, ts)).
  { rewrite Forall_forall in Hfull. apply Hfull. eapply nth_error_In; eauto. }
  destruct Hf as [Hf1 Hf2]. cbn [fst snd] in Hf1, Hf2.
  destruct (nth_error ts j) as [t|] eqn:Et;
    [|apply nth_error_None in Et; lia].
  destruct (nth_error ps j) as [c|] eqn:Ec;
    [|apply nth_error_None in Ec; lia].
  assert (Hact' : active M row = true) by (unfold active; rewrite Hact; reflexivity).
  unfold aligned in Hal.
  destruct (expand_children M beam_width (tgt_tokens p) (target_probs p) tops
              i row lik ps ts j t c) as (q & Hq1 & Hq2); try assumption; try congruence.
  exists ps, ts, t, c, q. rewrite Hrows, Hprobs.
  repeat split; try assumption.
  - rewrite nth_error_app1; [exact Hq1 | apply nth_error_Some; congruence].
  - rewrite nth_error_app1; [exact Hq2 | apply nth_error_Some; congruence].
Qed.

(** The terminated sentences of a pool the loop goes through: in the
    grouped pool, at one position, the sentence with the token [0] added
    and the likelihood times [fdecay]. *)
Lemma beam_merge_terminated (p m : pool M) i row lik :
  visited M source beam_width max_target max_sentence_length p ->
  beam_merge M (beam_source M source) beam_width p = Ret m ->
  nth_error (tgt_tokens p) i = Some row ->
  nth_error (target_probs p) i = Some lik ->
  contains (EOS_IDX M) row = true ->
  exists q,
    nth_error (tgt_tokens m) q = Some (row ++ [0]) /\
    nth_error (target_probs m) q = Some (fmul M lik (fdecay M)).
Proof.
  intros Hv Hm Hrow Hlik Hterm.
  destruct (visited_shape M source beam_width max_target max_sentence_length p Hv)
    as (Hal & _ & _).
  destruct (beam_merge_Ret M _ _ p m Hal Hm) as (tops & Htops & _ & Hrows & Hprobs).
  pose proof (mapM_length _ _ _ Htops) as Hlen.
  pose proof (beams_full _ _ _ _ _ Htops) as Hfull.
  unfold aligned in Hal.
  destruct (expand_length M beam_width (tgt_tokens p) (target_probs p) tops)
    as [Hl1 Hl2]; try congruence.
  assert (Hterm' : terminated M row = true) by exact Hterm.
  destruct (terminated_carried M (tgt_tokens p) (target_probs p) i row lik)
    as (q & Hq1 & Hq2); try assumption; try congruence.
  exists (beam_width * length (filter (active M) (tgt_tokens p)) + q).
  rewrite Hrows, Hprobs. split.
  - rewrite nth_error_app2 by lia. rewrite Hl1.
    replace (_ + q - _) with q by lia. exact Hq1.
  - rewrite nth_error_app2 by lia. rewrite Hl2.
    replace (_ + q - _) with q by lia. exact Hq2.
Qed.

(** C4: after every turn of the loop the pool has at most [max_target]
    hypotheses; when the grouped pool has more, the turn keeps
    [max_target] of its hypotheses and none of those it drops has a
    larger likelihood than one it keeps; otherwise it keeps them all. *)
Theorem beam_step_pool_size (p p' : pool M) :
  visited M source beam_width max_target max_sentence_length p ->
  beam_step M (beam_source M source) beam_width max_target p = Ret p' ->
  length (tgt_tokens p') <= max_target /\
  length (target_probs p') <= max_target /\
  exists m,
    beam_merge M (beam_source M source) beam_width p = Ret m /\
    (length (target_probs m) <= max_target -> p' = m) /\
    (max_target < length (target_probs m) ->
     exists dropped,
       Permutation (hypotheses m) (hypotheses p' ++ dropped) /\
       length (hypotheses p') = max_target /\
       forall r d, In r (hypotheses p') -> In d dropped ->
                   fleb M (snd d) (snd r) = true).
Proof.
  intros Hv Hstep.
  destruct (visited_shape M source beam_width max_target max_sentence_length p Hv)
    as (Hal & _ & _).
  destruct (beam_step_Ret M _ _ _ p p' Hstep) as (m & Hm & Ht).
  destruct (beam_merge_shape M _ _ p m Hal Hm) as (_ & Halm & _).
  destruct (beam_trim_size M max_target m p' Ht Halm) as (_ & Hal' & Hsize).
  split; [lia|]. split; [exact Hsize|].
  exists m. split; [exact Hm|]. split.
  - apply beam_trim_keep. exact Ht.
  - apply beam_trim_top; assumption.
Qed.

End PoolFacts.

Section OutputFacts.

Variable M : Env.
Variable source : string.
Variables beam_width max_target : nat.
Variable max_sentence_length : Z.

Hypothesis fleb_total : forall x y : F M, fleb M x y = true \/ fleb M y x = true.

(** [takewhile] stops before the first entry that fails the test. *)
Lemma takewhile_split {A : Type} (f : A -> bool) l :
  exists rest,
    l = takewhile f l ++ rest /\
    Forall (fun a => f a = true) (takewhile f l) /\
    (rest = [] \/ exists a rest', rest = a :: rest' /\ f a = false).
Proof.
  induction l as [|a l (rest & H1 & H2 & H3)]; cbn.
  - exists []. repeat split; auto.
  - destruct (f a) eqn:E.
    + exists rest. cbn. repeat split; [congruence | constructor; assumption | exact H3].
    + exists (a :: l). repeat split; [constructor|]. right. eauto.
Qed.

Lemma sentence_tokens_cut row :
  exists rest,
    tl row = sentence_tokens M row ++ rest /\
    ~ In (EOS_IDX M) (sentence_tokens M row) /\
    (rest = [] \/ exists rest', rest = EOS_IDX M :: rest').
Proof.
  unfold sentence_tokens.
  destruct (takewhile_split (fun t => negb (t =? EOS_IDX M)) (tl row))
    as (rest & H1 & H2 & H3).
  exists rest. split; [exact H1|]. split.
  - intros Hin. rewrite Forall_forall in H2. apply H2 in Hin.
    rewrite Nat.eqb_refl in Hin. discriminate.
  - destruct H3 as [-> | (a & rest' & -> & Ha)]; [left; reflexivity | right].
    apply negb_false_iff, Nat.eqb_eq in Ha. subst. eauto.
Qed.

(** C5: the list [beam_search] returns holds, for every hypothesis of the
    final pool, the text of its tokens after [<bos>] and before the first
    [<eos>] with its likelihood, and is sorted by decreasing likelihood. *)
Theorem beam_search_sorted out :
  beam_search M source beam_width max_target max_sentence_length = Ret out ->
  exists p sentences,
    beam_final M source beam_width max_target max_sentence_length = Ret p /\
    length (target_probs p) = length (tgt_tokens p) /\
    Forall2 (fun row sentence =>
               (exists rest,
                  tl row = sentence_tokens M row ++ rest /\
                  ~ In (EOS_IDX M) (sentence_tokens M row) /\
                  (rest = [] \/ exists rest', rest = EOS_IDX M :: rest')) /\
               exists tokens,
                 lookup_tokens (tgt_vocab M) (sentence_tokens M row) = Ret tokens /\
                 sentence = beautify (join_tokens tokens))
            (tgt_tokens p) sentences /\
    Permutation out (combine sentences (target_probs p)) /\
    Sorted (fun a b => fleb M (snd b) (snd a) = true) out.
Proof.
  unfold beam_search. intros H.
  destruct (beam_final M source beam_width max_target max_sentence_length)
    as [p| |] eqn:Ep; try discriminate.
  cbn [bind] in H. unfold beam_sentences in H.
  destruct (mapM (sentence_of M) (tgt_tokens p)) as [sentences| |] eqn:Es;
    try discriminate.
  cbn [bind] in H. inversion H; subst; clear H.
  exists p, sentences. split; [reflexivity|].
  pose proof (beam_final_visited M source beam_width max_target max_sentence_length p Ep)
    as Hv.
  destruct (visited_shape M source beam_width max_target max_sentence_length p Hv)
    as (Hal & _ & _).
  split; [symmetry; exact Hal|]. split; [|split].
  - apply mapM_Forall2 in Es.
    induction Es as [|row s rows ss Hrow _ IH]; constructor; [|exact IH].
    split; [apply sentence_tokens_cut|].
    unfold sentence_of in Hrow.
    destruct (lookup_tokens (tgt_vocab M) (sentence_tokens M row)) as [tokens| |];
      try discriminate.
    cbn [bind] in Hrow. inversion Hrow. eauto.
  - apply sort_desc_perm.
  - apply (sort_desc_sorted M fleb_total).
Qed.

End OutputFacts.

(* ================================================================= *)
(** ** Pools of one sentence *)


Section SingleFacts.

Variable M : Env.
Variable src_tokens : list nat.
Variables beam_width max_target : nat.

Lemma special_indices : BOS_IDX M = 2 /\ EOS_IDX M = 3 /\ PAD_IDX M = 1.
Proof. repeat split; reflexivity. Qed.

Lemma beam_init_row : tgt_tokens (beam_init M) = [[BOS_IDX M]].
Proof. reflexivity. Qed.

(** A pool of one terminated sentence. *)
Lemma beam_step_single_terminated n row l :
  contains (EOS_IDX M) row = true ->
  beam_width <= length (softmax M (model M src_tokens row)) ->
  1 <= max_target ->
  beam_step M src_tokens beam_width max_target
            {| n_tokens := n; tgt_tokens := [row]; target_probs := [l] |} =
  Ret {| n_tokens := S n; tgt_tokens := [row ++ [0]];
         target_probs := [fmul M l (fdecay M)] |}.
Proof.
  intros Hc Hk Hmt.
  destruct (topk_returns M beam_width _ Hk) as [top Htop].
  unfold beam_step, beam_merge. cbn [tgt_tokens target_probs n_tokens mapM].
  rewrite Htop. cbn [bind].
  unfold indices_terminated, enumerate. cbn [length seq combine filter snd].
  rewrite Hc. cbn. unfold beam_trim. cbn [target_probs length].
  destruct (Nat.leb_spec 1 max_target); [reflexivity | lia].
Qed.

(** A pool of one active sentence, beam width 1. *)
Lemma beam_step_single_active n row l c t :
  contains (EOS_IDX M) row = false ->
  topk M 1 (softmax M (model M src_tokens row)) = Ret ([c], [t]) ->
  1 <= max_target ->
  beam_step M src_tokens 1 max_target
            {| n_tokens := n; tgt_tokens := [row]; target_probs := [l] |} =
  Ret {| n_tokens := S n; tgt_tokens := [row ++ [t]];
         target_probs := [fmul M l c] |}.
Proof.
  intros Hc Htop Hmt.
  unfold beam_step, beam_merge. cbn [tgt_tokens target_probs n_tokens mapM].
  rewrite Htop. cbn [bind].
  unfold indices_terminated, enumerate. cbn [length seq combine filter snd].
  rewrite Hc. cbn. unfold beam_trim. cbn [target_probs length].
  destruct (Nat.leb_spec 1 max_target); [reflexivity | lia].
Qed.

Lemma contains_app tok a b : contains tok (a ++ b) = contains tok a || contains tok b.
Proof. unfold contains. apply existsb_app. Qed.

Hypothesis scores_wide :
  forall row, beam_width <= length (softmax M (model M src_tokens row)).

(** Once its only sentence is terminated, the pool is padded and decayed
    at every remaining turn. *)
Lemma beam_loop_single_terminated n : forall fuel nn row l,
  contains (EOS_IDX M) row = true ->
  1 <= max_target -> n <= fuel ->
  beam_loop M src_tokens beam_width max_target (Z.of_nat (nn + n)) fuel
            {| n_tokens := nn; tgt_tokens := [row]; target_probs := [l] |} =
  Ret {| n_tokens := nn + n; tgt_tokens := [row ++ repeat 0 n];
         target_probs := [decayed M n l] |}.
Proof.
  induction n as [|n IH]; intros fuel nn row l Hc Hmt Hfuel.
  - rewrite Nat.add_0_r, app_nil_r.
    destruct fuel; cbn [beam_loop n_tokens]; rewrite Z.ltb_irrefl; reflexivity.
  - destruct fuel as [|fuel]; [lia|]. cbn [beam_loop n_tokens].
    destruct (Z.ltb_spec (Z.of_nat nn) (Z.of_nat (nn + S n))); [|lia].
    rewrite beam_step_single_terminated by auto. cbn [bind].
    replace (nn + S n) with (S nn + n) by lia.
    rewrite IH; try lia.
    + cbn [repeat decayed]. rewrite <- app_assoc. reflexivity.
    + rewrite contains_app, Hc. reflexivity.
Qed.

End SingleFacts.

Section ShortFacts.

Variable M : Env.
Variable source : string.

Lemma sentence_of_terminated_first z :
  sentence_of M ([BOS_IDX M; EOS_IDX M] ++ z) = Ret EmptyString.
Proof. reflexivity. Qed.

(** C1, amended: beam width 1, the end marker first with probability 1.
    The loop has no exit for a pool without active sentence: the single
    hypothesis gets one padding token and one decay at each of the
    [max_sentence_length - 2] turns left, and is returned as the empty
    sentence. *)
Theorem beam_search_immediate_end max_target max_sentence_length :
  1 <= max_target ->
  (2 <= max_sentence_length)%Z ->
  (forall row, 1 <= length (softmax M (model M (beam_source M source) row))) ->
  topk M 1 (softmax M (model M (beam_source M source) [BOS_IDX M]))
    = Ret ([fone M], [EOS_IDX M]) ->
  exists padding,
    length padding = Z.to_nat max_sentence_length - 2 /\
    beam_final M source 1 max_target max_sentence_length =
      Ret {| n_tokens := Z.to_nat max_sentence_length;
             tgt_tokens := [[BOS_IDX M; EOS_IDX M] ++ padding];
             target_probs := [decayed M (Z.to_nat max_sentence_length - 2)
                                      (fmul M (fone M) (fone M))] |} /\
    beam_search M source 1 max_target max_sentence_length =
      Ret [(EmptyString, decayed M (Z.to_nat max_sentence_length - 2)
                                 (fmul M (fone M) (fone M)))].
Proof.
  intros Hmt HL Hwide Htop.
  exists (repeat 0 (Z.to_nat max_sentence_length - 2)).
  split; [apply repeat_length|].
  assert (Hfinal :
    beam_final M source 1 max_target max_sentence_length =
    Ret {| n_tokens := Z.to_nat max_sentence_length;
           tgt_tokens := [[BOS_IDX M; EOS_IDX M]
                            ++ repeat 0 (Z.to_nat max_sentence_length - 2)];
           target_probs := [decayed M (Z.to_nat max_sentence_length - 2)
                                    (fmul M (fone M) (fone M))] |}).
  { unfold beam_final.
    destruct (Z.to_nat max_sentence_length) as [|fuel] eqn:Efuel; [lia|].
    cbn [beam_loop]. change (n_tokens (beam_init M)) with 1.
    destruct (Z.ltb_spec (Z.of_nat 1) max_sentence_length); [|lia].
    unfold beam_init. change (map (vocab_index (tgt_vocab M)) ["<bos>"%string])
      with [BOS_IDX M].
    rewrite (beam_step_single_active M _ max_target 1 [BOS_IDX M] (fone M) (fone M)
               (EOS_IDX M)); [|reflexivity|exact Htop|exact Hmt].
    cbn [bind].
    replace max_sentence_length with (Z.of_nat (2 + (S fuel - 2))) at 1 by lia.
    rewrite beam_loop_single_terminated; try lia; try assumption; [|reflexivity].
    replace (2 + (S fuel - 2)) with (S fuel) by lia. reflexivity. }
  split; [exact Hfinal|].
  unfold beam_search. rewrite Hfinal. cbn [bind].
  unfold beam_sentences. cbn [tgt_tokens target_probs mapM].
  rewrite sentence_of_terminated_first. reflexivity.
Qed.

(** C8, amended: nothing is checked, and with [max_sentence_length <= 1],
    non-positive values included, the loop body is never entered: the call
    returns the initial hypothesis, the empty sentence with likelihood
    1.0, whatever the beam width and the maximum of hypotheses. *)
Theorem beam_search_no_turn beam_width max_target max_sentence_length :
  (max_sentence_length <= 1)%Z ->
  beam_final M source beam_width max_target max_sentence_length = Ret (beam_init M) /\
  beam_search M source beam_width max_target max_sentence_length
    = Ret [(EmptyString, fone M)].
Proof.
  intros HL.
  assert (Hfinal : beam_final M source beam_width max_target max_sentence_length
                   = Ret (beam_init M)).
  { unfold beam_final.
    destruct (Z.to_nat max_sentence_length); cbn [beam_loop];
      change (n_tokens (beam_init M)) with 1;
      destruct (Z.ltb_spec (Z.of_nat 1) max_sentence_length); try lia; reflexivity. }
  split; [exact Hfinal|].
  unfold beam_search. rewrite Hfinal. reflexivity.
Qed.

End ShortFacts.

Section TopOneFacts.

Variable M : Env.





Lemma takewhile_stop {A : Type} (f : A -> bool) a x b :
  Forall (fun y => f y = true) a -> f x = false ->
  takewhile f (a ++ x :: b) = a.
Proof.
  induction 1 as [|y a Hy _ IH]; intros Hx; cbn.
  - rewrite Hx. reflexivity.
  - rewrite Hy, IH by assumption. reflexivity.
Qed.

Lemma contains_single tok t : contains tok [t] = (tok =? t).
Proof. unfold contains. cbn [existsb]. apply orb_false_r. Qed.

Lemma contains_false tok row :
  contains tok row = false -> Forall (fun t => negb (t =? tok) = true) row.
Proof.
  unfold contains. induction row as [|t row IH]; cbn; [constructor|].
  intros H. apply orb_false_elim in H. destruct H as [H1 H2].
  constructor; [|apply IH; exact H2].
  rewrite Nat.eqb_sym, H1. reflexivity.
Qed.

(** A sentence that ends by its first end marker, whatever follows. *)
Lemma sentence_tokens_ended row z :
  contains (EOS_IDX M) row = false -> row <> [] ->
  sentence_tokens M ((row ++ [EOS_IDX M]) ++ z) = tl row.
Proof.
  intros Hc Hne. destruct row as [|b row]; [congruence|].
  unfold sentence_tokens. rewrite <- app_assoc. cbn [app tl].
  apply takewhile_stop.
  - apply contains_false in Hc. inversion Hc; assumption.
  - rewrite Nat.eqb_refl. reflexivity.
Qed.

End TopOneFacts.

(* ================================================================= *)
(** ** The concrete setting *)

Section ConcreteFacts.

Local Open Scope string_scope.

Lemma Qle_bool_total (x y : Q) : Qle_bool x y = true \/ Qle_bool y x = true.
Proof.
  rewrite !Qle_bool_iff. destruct (Qlt_le_dec x y) as [H | H].
  - left. apply Qlt_le_weak. exact H.
  - right. exact H.
Qed.

Lemma Qle_bool_trans (x y z : Q) :
  Qle_bool x y = true -> Qle_bool y z = true -> Qle_bool x z = true.
Proof. rewrite !Qle_bool_iff. apply Qle_trans. Qed.

Lemma ab_pool1_visited : visited (Qenv net_ab) "ab" 2 2 6 ab_pool1.
Proof.
  apply (visited_step (Qenv net_ab) "ab" 2 2 6 (beam_init (Qenv net_ab)) ab_pool1).
  - apply visited_init.
  - cbn. lia.
  - reflexivity.
Qed.

(** C1, as stated, fails.  The network gives probability 1 to [<eos>] at
    the first turn; with maximum length 4 the loop takes two more turns,
    makes the hypothesis four tokens long, [<bos> <eos> 0 0], and decays
    its likelihood to 0.999 * 0.999; with beam width 2 and two hypotheses
    kept, two hypotheses are returned. *)
Lemma beam_search_end_first_decayed :
  topk (Qenv net_eos) 1
       (softmax (Qenv net_eos)
                (model (Qenv net_eos) (beam_source (Qenv net_eos) "ab")
                       [BOS_IDX (Qenv net_eos)]))
    = Ret ([1%Q], [EOS_IDX (Qenv net_eos)]) /\
  beam_final (Qenv net_eos) "ab" 1 1 4
    = Ret (Build_pool (Qenv net_eos) 4 [[2; 3; 0; 0]] [(998001 # 1000000)%Q]) /\
  beam_search (Qenv net_eos) "ab" 1 1 4 = Ret [("", (998001 # 1000000)%Q)] /\
  ~ ((998001 # 1000000) == 1)%Q /\
  exists out, beam_search (Qenv net_eos) "ab" 2 2 2 = Ret out /\ length out = 2.
Proof.
  split; [reflexivity|].
  split; [reflexivity|].
  split; [reflexivity|].
  split; [intros H; vm_compute in H; discriminate|].
  eexists. split; reflexivity.
Qed.

(** C3: the token that pads a terminated sentence is 0, the index of
    [<unk>]; the index of [<pad>] is 1. *)
Lemma beam_merge_pads_with_unk :
  beam_merge (Qenv net_eos) (beam_source (Qenv net_eos) "ab") 1 eos_pool
    = Ret (Build_pool (Qenv net_eos) 3 [[2; 3; 0]] [(999 # 1000)%Q]) /\
  UNK_IDX (Qenv net_eos) = 0 /\
  PAD_IDX (Qenv net_eos) = 1 /\
  lookup_tokens (tgt_vocab (Qenv net_eos)) [0; 1] = Ret ["<unk>"; "<pad>"].
Proof. repeat split; reflexivity. Qed.

(** C8, as stated, fails: with maximum length 0 or -3 the call returns. *)
Lemma beam_search_returns_on_zero_length :
  beam_search (Qenv net_ab) "ab" 2 2 0 = Ret [("", 1%Q)] /\
  beam_search (Qenv net_ab) "ab" 2 2 (-3) = Ret [("", 1%Q)] /\
  beam_search (Qenv net_ab) "ab" 2 2 0 <> Raised.
Proof. repeat split; try reflexivity; discriminate. Qed.

(** A sentence as the tokens joined by single spaces give it. *)
Lemma beautify_idempotent_single_spaced_witness :
  single_spaced "il n ' y a pas de co - pilote , non ." /\
  beautify (beautify "il n ' y a pas de co - pilote , non .")
    = beautify "il n ' y a pas de co - pilote , non .".
Proof.
  split; [reflexivity|].
  apply (beautify_idempotent_single_spaced "il n ' y a pas de co - pilote , non .").
  reflexivity.
Defined.

(** The second turn of the search with [net_ab]: the first candidate of the
    sentence [<bos> b]. *)
Lemma beam_merge_children_witness :
  exists ps ts t c q,
    topk (Qenv net_ab) 2
         (softmax (Qenv net_ab)
                  (model (Qenv net_ab) (beam_source (Qenv net_ab) "ab") [2; 5]))
      = Ret (ps, ts) /\
    nth_error ts 0 = Some t /\ nth_error ps 0 = Some c /\
    nth_error (tgt_tokens ab_merged2) q = Some ([2; 5] ++ [t])%list /\
    nth_error (target_probs ab_merged2) q = Some (fmul (Qenv net_ab) (4 # 10)%Q c).
Proof.
  apply (beam_merge_children (Qenv net_ab) "ab" 2 2 6 ab_pool1 ab_merged2 1 [2; 5]
                             (4 # 10)%Q 0).
  - exact ab_pool1_visited.
  - reflexivity.
  - reflexivity.
  - reflexivity.
  - reflexivity.
  - lia.
Defined.

(** The second turn of the search with [net_ab]: four hypotheses, two kept. *)
Lemma beam_step_pool_size_witness :
  length (tgt_tokens ab_pool2) <= 2 /\
  length (target_probs ab_pool2) <= 2 /\
  exists m,
    beam_merge (Qenv net_ab) (beam_source (Qenv net_ab) "ab") 2 ab_pool1 = Ret m /\
    (length (target_probs m) <= 2 -> ab_pool2 = m) /\
    (2 < length (target_probs m) ->
     exists dropped,
       Permutation (hypotheses m) (hypotheses ab_pool2 ++ dropped) /\
       length (hypotheses ab_pool2) = 2 /\
       forall r d, In r (hypotheses ab_pool2) -> In d dropped ->
                   fleb (Qenv net_ab) (snd d) (snd r) = true).
Proof.
  apply (beam_step_pool_size (Qenv net_ab) "ab" 2 2 6 Qle_bool_total Qle_bool_trans
                             ab_pool1 ab_pool2).
  - exact ab_pool1_visited.
  - reflexivity.
Defined.

(** The search with [net_ab], beam width 2, two hypotheses, length 6. *)
Lemma beam_search_sorted_witness :
  exists p sentences,
    beam_final (Qenv net_ab) "ab" 2 2 6 = Ret p /\
    length (target_probs p) = length (tgt_tokens p) /\
    Forall2 (fun row sentence =>
               (exists rest,
                  tl row = (sentence_tokens (Qenv net_ab) row ++ rest)%list /\
                  ~ In (EOS_IDX (Qenv net_ab)) (sentence_tokens (Qenv net_ab) row) /\
                  (rest = [] \/ exists rest', rest = EOS_IDX (Qenv net_ab) :: rest')) /\
               exists tokens,
                 lookup_tokens (tgt_vocab (Qenv net_ab))
                               (sentence_tokens (Qenv net_ab) row) = Ret tokens /\
                 sentence = beautify (join_tokens tokens))
            (tgt_tokens p) sentences /\
    Permutation [("a a a", (215784 # 1000000)%Q); ("a a b", (143856 # 1000000)%Q)]
                (combine sentences (target_probs p)) /\
    Sorted (fun a b => fleb (Qenv net_ab) (snd b) (snd a) = true)
           [("a a a", (215784 # 1000000)%Q); ("a a b", (143856 # 1000000)%Q)].
Proof.
  apply (beam_search_sorted (Qenv net_ab) "ab" 2 2 6 Qle_bool_total).
  reflexivity.
Defined.

(** The same search ends, every row of six tokens. *)
Lemma beam_search_terminates_witness :
  beam_search (Qenv net_ab) "ab" 2 2 6 <> OutOfFuel /\
  forall p,
    beam_final (Qenv net_ab) "ab" 2 2 6 = Ret p ->
    Forall (fun row => Z.of_nat (length row) = 6%Z /\
                       (Z.of_nat (length (sentence_tokens (Qenv net_ab) row)) < 6)%Z)
           (tgt_tokens p).
Proof.
  assert (H : (2 <= 6)%Z) by lia.
  pose proof (beam_search_terminates (Qenv net_ab) "ab" 2 2 6 H) as (_ & H2 & _ & _ & H4).
  split; assumption.
Defined.

(** The search with [net_eos] and maximum length 4. *)
Lemma beam_search_immediate_end_witness :
  exists padding,
    length padding = Z.to_nat 4 - 2 /\
    beam_final (Qenv net_eos) "ab" 1 1 4 =
      Ret (Build_pool (Qenv net_eos) (Z.to_nat 4)
             [([BOS_IDX (Qenv net_eos); EOS_IDX (Qenv net_eos)] ++ padding)%list]
             [decayed (Qenv net_eos) (Z.to_nat 4 - 2) (1 * 1)%Q]) /\
    beam_search (Qenv net_eos) "ab" 1 1 4 =
      Ret [("", decayed (Qenv net_eos) (Z.to_nat 4 - 2) (1 * 1)%Q)].
Proof.
  apply (beam_search_immediate_end (Qenv net_eos) "ab" 1 4).
  - lia.
  - lia.
  - intros row. cbn. lia.
  - reflexivity.
Defined.

(** Maximum length 0. *)
Lemma beam_search_no_turn_witness :
  beam_final (Qenv net_ab) "ab" 2 2 0 = Ret (beam_init (Qenv net_ab)) /\
  beam_search (Qenv net_ab) "ab" 2 2 0 = Ret [("", 1%Q)].
Proof.
  apply (beam_search_no_turn (Qenv net_ab) "ab" 2 2 0). lia.
Defined.

End ConcreteFacts.

(* ================================================================= *)
(** ** More on [beautify] and on the data set *)

Section CleanupFacts.

Local Open Scope char_scope.

Lemma without_spaces_replace2 a b x s :
  spaced_rule a b x ->
  without_spaces (replace (str2 a b) (str1 x) s) = without_spaces s /\
  String.length (replace (str2 a b) (str1 x) s) <= String.length s.
Proof.
  intros Hr. induction s as [| c0 | c0 d0 s [IHs1 IHs2] [IHd1 IHd2]] using string_pair_ind.
  - split; [reflexivity | apply le_n].
  - rewrite replace2_one. split; [reflexivity | apply le_n].
  - rewrite replace2_cons.
    destruct ((c0 =? a) && (d0 =? b)) eqn:E.
    + apply andb_true_iff in E. destruct E as [E1 E2].
      apply Ascii.eqb_eq in E1, E2. subst c0 d0. split.
      * cbn [without_spaces]. rewrite IHs1.
        destruct Hr as [(-> & Hb & ->) | (Ha & -> & ->)].
        -- rewrite Ascii.eqb_refl. reflexivity.
        -- rewrite Ascii.eqb_refl.
           destruct (Ascii.eqb_spec a space); [congruence | reflexivity].
      * cbn [String.length]. lia.
    + split.
      * cbn [without_spaces] in *. rewrite IHd1. reflexivity.
      * cbn [String.length] in *. lia.
Qed.

Lemma without_spaces_apply_rules rs :
  Forall rule_ok rs ->
  forall s, without_spaces (apply_rules rs s) = without_spaces s /\
            String.length (apply_rules rs s) <= String.length s.
Proof.
  induction 1 as [|[[a b] x] rs Hr _ IH]; intros s.
  - split; [reflexivity | apply le_n].
  - change (apply_rules ((a, b, x) :: rs) s)
      with (apply_rules rs (apply_rule (a, b, x) s)).
    destruct (IH (apply_rule (a, b, x) s)) as [H1 H2].
    destruct (without_spaces_replace2 a b x s Hr) as [H3 H4].
    cbn [apply_rule] in *. split; [congruence | lia].
Qed.

Lemma has_char_without_spaces s : has_char space s = false -> without_spaces s = s.
Proof.
  induction s as [|c s IH]; cbn; [reflexivity|].
  intros H. apply orb_false_elim in H. destruct H as [H1 H2].
  rewrite H1, (IH H2). reflexivity.
Qed.

Lemma without_spaces_length s : String.length (without_spaces s) <= String.length s.
Proof.
  induction s as [|c s IH]; cbn; [apply le_n|].
  destruct (c =? space); cbn; lia.
Qed.

Lemma without_spaces_same_length s :
  String.length (without_spaces s) = String.length s -> without_spaces s = s.
Proof.
  induction s as [|c s IH]; cbn; [reflexivity|].
  pose proof (without_spaces_length s).
  destruct (c =? space); cbn; intros H'; [lia|].
  rewrite IH by lia. reflexivity.
Qed.

(** [beautify] only deletes spaces: the other characters stay, in their
    order, and the sentence gets no longer; a sentence without space is
    returned as it is. *)
Theorem beautify_deletes_spaces_only s :
  without_spaces (beautify s) = without_spaces s /\
  String.length (beautify s) <= String.length s /\
  (has_char space s = false -> beautify s = s).
Proof.
  assert (Hok : Forall rule_ok (rules_of punc links)).
  { apply rules_of_ok.
    - unfold punc. repeat constructor; discriminate.
    - unfold links. repeat constructor; discriminate. }
  unfold beautify. rewrite beautify_with_rules.
  destruct (without_spaces_apply_rules _ Hok s) as [H1 H2].
  split; [exact H1|]. split; [exact H2|].
  intros Hs. pose proof (has_char_without_spaces s Hs) as Hw.
  rewrite Hw in H1.
  assert (Hlen : String.length (without_spaces (apply_rules (rules_of punc links) s))
                 = String.length (apply_rules (rules_of punc links) s)).
  { pose proof (without_spaces_length (apply_rules (rules_of punc links) s)).
    rewrite H1 in *. lia. }
  rewrite <- (without_spaces_same_length _ Hlen). exact H1.
Qed.

Lemma replace1_cons c x s :
  replace (str1 c) EmptyString (String x s) =
  if x =? c then replace (str1 c) EmptyString s
  else String x (replace (str1 c) EmptyString s).
Proof.
  unfold replace, str1. cbn [replace_from String.prefix String.length Nat.sub].
  destruct (ascii_dec c x) as [-> | Hne].
  - rewrite Ascii.eqb_refl. destruct s; reflexivity.
  - destruct (Ascii.eqb_spec x c); [congruence | reflexivity].
Qed.

Lemma replace1_removes c s : has_char c (replace (str1 c) EmptyString s) = false.
Proof.
  induction s as [|x s IH]; [reflexivity|].
  rewrite replace1_cons. destruct (x =? c) eqn:E; [exact IH|].
  cbn [has_char]. rewrite E, IH. reflexivity.
Qed.

Lemma replace1_absent c s :
  has_char c s = false -> replace (str1 c) EmptyString s = s.
Proof.
  induction s as [|x s IH]; [reflexivity|].
  cbn [has_char]. intros H. apply orb_false_elim in H. destruct H as [H1 H2].
  rewrite replace1_cons, H1, (IH H2). reflexivity.
Qed.

End CleanupFacts.

Section PreprocessFacts.

Variables en_tok fr_tok : string -> list string.
Variable max_words : Z.

(** [preprocess] returns, in their order, the samples whose two sentences
    have fewer than [max_words] tokens, without their line feeds: no
    returned sentence holds a line feed, none is returned for
    [max_words <= 0], and a data set of short sentences without line feed
    is returned as it is. *)
Theorem preprocess_spec (data : list (string * string)) :
  (forall e f, In (e, f) (preprocess en_tok fr_tok max_words data) ->
     has_char newline e = false /\ has_char newline f = false /\
     exists e0 f0,
       In (e0, f0) data /\
       (Z.of_nat (length (en_tok e0)) < max_words)%Z /\
       (Z.of_nat (length (fr_tok f0)) < max_words)%Z /\
       e = replace (str1 newline) EmptyString e0 /\
       f = replace (str1 newline) EmptyString f0) /\
  length (preprocess en_tok fr_tok max_words data) <= length data /\
  ((max_words <= 0)%Z -> preprocess en_tok fr_tok max_words data = []) /\
  (Forall (fun s => (Z.of_nat (length (en_tok (fst s))) < max_words)%Z /\
                    (Z.of_nat (length (fr_tok (snd s))) < max_words)%Z /\
                    has_char newline (fst s) = false /\
                    has_char newline (snd s) = false) data ->
   preprocess en_tok fr_tok max_words data = data).
Proof.
  induction data as [|[e0 f0] data (IH1 & IH2 & IH3 & IH4)].
  - cbn. repeat split; auto; intros; contradiction.
  - cbn [preprocess].
    destruct (Z.geb_spec (Z.of_nat (length (en_tok e0))) max_words) as [He | He];
      destruct (Z.geb_spec (Z.of_nat (length (fr_tok f0))) max_words) as [Hf | Hf];
      cbn [orb].
    1-3: (split; [|split; [|split]];
          [ intros e f Hin; destruct (IH1 e f Hin) as (H1 & H2 & e1 & f1 & H3 & H4);
            split; [exact H1|]; split; [exact H2|]; exists e1, f1;
            split; [right; exact H3 | exact H4]
          | cbn [length]; lia
          | exact IH3
          | intros Hall; inversion Hall as [|? ? (Ha & Hb & _) _]; subst;
            cbn [fst snd] in *; lia ]).
    split; [|split; [|split]].
    + intros e f [Hin | Hin].
      * inversion Hin; subst. split; [apply replace1_removes|].
        split; [apply replace1_removes|]. exists e0, f0.
        repeat split; try lia. left. reflexivity.
      * destruct (IH1 e f Hin) as (H1 & H2 & e1 & f1 & H3 & H4).
        split; [exact H1|]. split; [exact H2|]. exists e1, f1.
        split; [right; exact H3 | exact H4].
    + cbn [length]. lia.
    + intros Hm. pose proof (Nat2Z.is_nonneg (length (en_tok e0))). lia.
    + intros Hall. inversion Hall as [|? ? (_ & _ & Hc & Hd) Hall']; subst.
      cbn [fst snd] in *. rewrite (replace1_absent _ _ Hc), (replace1_absent _ _ Hd).
      rewrite (IH4 Hall'). reflexivity.
Qed.

End PreprocessFacts.

(* ================================================================= *)
(** ** Vocabularies, samples and batches *)

Section VocabFacts.

Local Open Scope string_scope.

Lemma index_of_Some tok l i : index_of tok l = Some i -> nth_error l i = Some tok.
Proof.
  revert i. induction l as [|t l IH]; intros i; cbn; [discriminate|].
  destruct (String.eqb_spec t tok) as [-> | Hne].
  - intros H. inversion H. reflexivity.
  - destruct (index_of tok l) as [j|]; [|discriminate].
    intros H. inversion H. cbn. apply IH. reflexivity.
Qed.

Lemma index_of_None tok l : index_of tok l = None -> ~ In tok l.
Proof.
  induction l as [|t l IH]; cbn; [tauto|].
  destruct (String.eqb_spec t tok) as [-> | Hne]; [discriminate|].
  destruct (index_of tok l) as [j|]; [discriminate|].
  intros _ [H | H]; [congruence | apply IH; auto].
Qed.

Lemma build_vocab_unk words :
  index_of "<unk>" (build_vocab words) = Some 0 /\
  nth_error (build_vocab words) 0 = Some "<unk>" /\
  4 <= length (build_vocab words).
Proof.
  repeat split; try reflexivity.
  unfold build_vocab. rewrite length_app. cbn. lia.
Qed.

Lemma vocab_index_lookup words tok :
  lookup_token (build_vocab words) (vocab_index (build_vocab words) tok) =
  Ret (match index_of tok (build_vocab words) with
       | Some _ => tok
       | None => "<unk>"
       end).
Proof.
  unfold lookup_token, vocab_index.
  destruct (index_of tok (build_vocab words)) as [i|] eqn:E.
  - rewrite (index_of_Some _ _ _ E). reflexivity.
  - destruct (build_vocab_unk words) as (-> & -> & _). reflexivity.
Qed.

Lemma vocab_index_lt words tok :
  vocab_index (build_vocab words) tok < length (build_vocab words).
Proof.
  pose proof (vocab_index_lookup words tok) as H. unfold lookup_token in H.
  destruct (nth_error (build_vocab words) (vocab_index (build_vocab words) tok)) eqn:E;
    [|discriminate].
  apply nth_error_Some. congruence.
Qed.

Lemma vocab_indices_lt words tokens :
  Forall (fun i => i < length (build_vocab words))
         (map (vocab_index (build_vocab words)) tokens).
Proof.
  apply Forall_forall. intros i Hin. apply in_map_iff in Hin.
  destruct Hin as (tok & <- & _). apply vocab_index_lt.
Qed.

(** Looking up the indices of a list of tokens never raises and gives the
    tokens back, each token that is not in the vocabulary replaced by
    [<unk>]; the tokens of the vocabulary come back unchanged. *)
Theorem vocab_round_trip words tokens :
  lookup_tokens (build_vocab words) (map (vocab_index (build_vocab words)) tokens) =
    Ret (map (fun tok => match index_of tok (build_vocab words) with
                         | Some _ => tok
                         | None => "<unk>"
                         end) tokens) /\
  ((forall tok, In tok tokens -> In tok (build_vocab words)) ->
   lookup_tokens (build_vocab words) (map (vocab_index (build_vocab words)) tokens) =
     Ret tokens).
Proof.
  assert (H : lookup_tokens (build_vocab words)
                (map (vocab_index (build_vocab words)) tokens) =
              Ret (map (fun tok => match index_of tok (build_vocab words) with
                                   | Some _ => tok
                                   | None => "<unk>"
                                   end) tokens)).
  { unfold lookup_tokens. induction tokens as [|tok tokens IH]; [reflexivity|].
    cbn [map mapM]. rewrite vocab_index_lookup. cbn [bind]. rewrite IH. reflexivity. }
  split; [exact H|]. intros Hin. rewrite H. f_equal.
  clear H. induction tokens as [|tok tokens IH]; [reflexivity|].
  cbn [map]. rewrite IH by (intros; apply Hin; right; assumption).
  destruct (index_of tok (build_vocab words)) eqn:E; [reflexivity|].
  apply index_of_None in E. exfalso. apply E, Hin. left. reflexivity.
Qed.

Lemma list_getitem_spec {A : Type} (l : list A) (index : Z) :
  ((0 <= index < Z.of_nat (length l))%Z ->
   exists a, nth_error l (Z.to_nat index) = Some a /\ list_getitem l index = Ret a) /\
  ((- Z.of_nat (length l) <= index < 0)%Z ->
   list_getitem l index = list_getitem l (index + Z.of_nat (length l))) /\
  ((Z.of_nat (length l) <= index \/ index < - Z.of_nat (length l))%Z ->
   list_getitem l index = Raised).
Proof.
  unfold list_getitem. cbv zeta. split; [|split].
  - intros Hi. destruct (Z.ltb_spec index 0); [lia|].
    destruct (Z.ltb_spec index 0); [lia|].
    destruct (nth_error l (Z.to_nat index)) as [a|] eqn:E; [eauto|].
    apply nth_error_None in E. lia.
  - intros Hi. destruct (Z.ltb_spec index 0); [|lia].
    destruct (Z.ltb_spec (index + Z.of_nat (length l)) 0); [lia|].
    destruct (Z.ltb_spec (index + Z.of_nat (length l)) 0); [lia|]. reflexivity.
  - intros [Hi | Hi].
    + destruct (Z.ltb_spec index 0); [lia|]. destruct (Z.ltb_spec index 0); [lia|].
      destruct (nth_error l (Z.to_nat index)) as [a|] eqn:E; [|reflexivity].
      assert (Z.to_nat index < length l) by (apply nth_error_Some; congruence). lia.
    + destruct (Z.ltb_spec index 0); [|lia].
      destruct (Z.ltb_spec (index + Z.of_nat (length l)) 0); [reflexivity | lia].
Qed.

(** A sample of the data set: the index counts from the end when it is
    negative and is refused out of range; the two sentences come as their
    token indices between the index 2 of [<bos>] and the index 3 of
    [<eos>], every index inside its vocabulary. *)
Theorem dataset_getitem_spec (d : TranslationDataset) (index : Z) :
  ((0 <= index < Z.of_nat (dataset_len d))%Z ->
   exists en_s fr_s,
     nth_error (dataset d) (Z.to_nat index) = Some (en_s, fr_s) /\
     dataset_getitem d index =
       Ret (2 :: map (vocab_index (en_vocab d)) (en_tokenizer d en_s) ++ [3],
            2 :: map (vocab_index (fr_vocab d)) (fr_tokenizer d fr_s) ++ [3])%list) /\
  ((- Z.of_nat (dataset_len d) <= index < 0)%Z ->
   dataset_getitem d index = dataset_getitem d (index + Z.of_nat (dataset_len d))) /\
  ((Z.of_nat (dataset_len d) <= index \/ index < - Z.of_nat (dataset_len d))%Z ->
   dataset_getitem d index = Raised) /\
  (forall en fr, dataset_getitem d index = Ret (en, fr) ->
     Forall (fun i => i < length (en_vocab d)) en /\
     Forall (fun i => i < length (fr_vocab d)) fr).
Proof.
  unfold dataset_getitem, dataset_len.
  destruct (list_getitem_spec (dataset d) index) as (H1 & H2 & H3).
  split; [|split; [|split]].
  - intros Hi. destruct (H1 Hi) as ([en_s fr_s] & Hn & ->).
    exists en_s, fr_s. split; [exact Hn|]. cbn [bind fst snd app map].
    rewrite !map_app. reflexivity.
  - intros Hi. rewrite (H2 Hi). reflexivity.
  - intros Hi. rewrite (H3 Hi). reflexivity.
  - intros en fr. destruct (list_getitem (dataset d) index) as [[en_s fr_s]| |];
      cbn [bind]; try discriminate.
    intros H. inversion H; subst. split.
    + apply (vocab_indices_lt (en_words d) (["<bos>"] ++ en_tokenizer d en_s ++ ["<eos>"])).
    + apply (vocab_indices_lt (fr_words d) (["<bos>"] ++ fr_tokenizer d fr_s ++ ["<eos>"])).
Qed.

End VocabFacts.

Section BatchFacts.

Lemma max_length_ge sequences s : In s sequences -> length s <= max_length sequences.
Proof.
  induction sequences as [|t sequences IH]; [intros []|].
  change (max_length (t :: sequences)) with (Nat.max (length t) (max_length sequences)).
  intros [-> | H]; [lia | specialize (IH H); lia].
Qed.

Lemma pad_sequence_spec padding_value sequences :
  sequences <> [] ->
  exists batch,
    pad_sequence padding_value sequences = Ret batch /\
    length batch = length sequences /\
    Forall (fun row => length row = max_length sequences) batch /\
    forall i s, nth_error sequences i = Some s ->
      nth_error batch i =
        Some (s ++ repeat padding_value (max_length sequences - length s)).
Proof.
  intros Hne. destruct sequences as [|s0 sequences]; [congruence|].
  eexists. split; [reflexivity|]. split; [apply length_map|]. split.
  - apply Forall_forall. intros row Hin. apply in_map_iff in Hin.
    destruct Hin as (s & <- & Hs). apply max_length_ge in Hs.
    rewrite length_app, repeat_length. lia.
  - intros i s Hs. rewrite nth_error_map, Hs. reflexivity.
Qed.

(** [generate_batch] refuses an empty list of samples; otherwise the two
    batches have one row per sample, every row as long as the longest
    sentence of its language, and row [i] is sentence [i] followed by
    padding only. *)
Theorem generate_batch_spec data_batch src_pad_idx tgt_pad_idx :
  (data_batch = [] -> generate_batch data_batch src_pad_idx tgt_pad_idx = Raised) /\
  (data_batch <> [] ->
   exists en_batch fr_batch,
     generate_batch data_batch src_pad_idx tgt_pad_idx = Ret (en_batch, fr_batch) /\
     length en_batch = length data_batch /\
     length fr_batch = length data_batch /\
     Forall (fun row => length row = max_length (map fst data_batch)) en_batch /\
     Forall (fun row => length row = max_length (map snd data_batch)) fr_batch /\
     forall i en fr, nth_error data_batch i = Some (en, fr) ->
       nth_error en_batch i =
         Some (en ++ repeat src_pad_idx (max_length (map fst data_batch) - length en)) /\
       nth_error fr_batch i =
         Some (fr ++ repeat tgt_pad_idx (max_length (map snd data_batch) - length fr))).
Proof.
  split.
  - intros ->. reflexivity.
  - intros Hne. unfold generate_batch.
    destruct (pad_sequence_spec src_pad_idx (map fst data_batch))
      as (en_batch & -> & He1 & He2 & He3).
    { destruct data_batch; [congruence | discriminate]. }
    destruct (pad_sequence_spec tgt_pad_idx (map snd data_batch))
      as (fr_batch & -> & Hf1 & Hf2 & Hf3).
    { destruct data_batch; [congruence | discriminate]. }
    exists en_batch, fr_batch. cbn [bind]. rewrite length_map in He1, Hf1.
    repeat split; try assumption.
    + apply He3. rewrite nth_error_map, H. reflexivity.
    + apply Hf3. rewrite nth_error_map, H. reflexivity.
Qed.

End BatchFacts.

(* ================================================================= *)
(** ** Top-k accuracy *)

Section AccuracyFacts.

Variable M : Env.

Lemma enumerate_indices {A : Type} (t : list A) : map fst (enumerate t) = seq 0 (length t).
Proof.
  unfold enumerate. generalize 0.
  induction t as [|a t IH]; intros k; [reflexivity|].
  cbn. rewrite IH. reflexivity.
Qed.

(** The indices of the whole decreasing sort are the indices of the
    tensor, each once. *)
Lemma sort_desc_indices (t : list (F M)) :
  Permutation (map fst (sort_desc M snd (enumerate t))) (seq 0 (length t)).
Proof.
  rewrite <- enumerate_indices. apply Permutation_map, sort_desc_perm.
Qed.

Lemma NoDup_firstn {A : Type} n (l : list A) : NoDup l -> NoDup (firstn n l).
Proof.
  intros H. rewrite <- (firstn_skipn n l) in H.
  apply NoDup_app_remove_r in H. exact H.
Qed.

Lemma topk_indices k t vs ids :
  topk M k t = Ret (vs, ids) ->
  ids = firstn k (map fst (sort_desc M snd (enumerate t))) /\
  NoDup ids /\ Forall (fun i => i < length t) ids.
Proof.
  intros H. apply topk_Ret in H. destruct H as (_ & _ & ->).
  rewrite <- firstn_map. split; [reflexivity|].
  pose proof (sort_desc_indices t) as Hp. split.
  - apply NoDup_firstn. apply (Permutation_NoDup (Permutation_sym Hp)), seq_NoDup.
  - apply Forall_forall. intros i Hi. apply In_firstn in Hi.
    apply (Permutation_in _ Hp) in Hi. apply in_seq in Hi. lia.
Qed.

Lemma good_row_NoDup pad real pred : NoDup pred -> good_row pad real pred <= 1.
Proof.
  unfold good_row. induction 1 as [|p pred Hnin _ IH]; cbn [filter length]; [lia|].
  destruct (Nat.eqb_spec p real) as [-> | Hne]; cbn [andb]; [|exact IH].
  destruct (negb (real =? pad)); [|exact IH].
  cbn [length]. apply le_n_S.
  assert (Hnil : filter (fun p => (p =? real) && true) pred = []).
  { clear IH. induction pred as [|q pred IHp]; [reflexivity|]. cbn [filter].
    destruct (Nat.eqb_spec q real) as [-> | Hq].
    - exfalso. apply Hnin. left. reflexivity.
    - cbn [andb]. apply IHp. intros Hin. apply Hnin. right. exact Hin. }
  rewrite Hnil. apply le_n.
Qed.

Lemma good_row_pad pad pred : good_row pad pad pred = 0.
Proof.
  unfold good_row. rewrite Nat.eqb_refl.
  induction pred as [|p pred IH]; [reflexivity|].
  cbn [filter negb]. rewrite andb_false_r. exact IH.
Qed.

Lemma good_sum_bound pad real_tokens : forall pred_tokens,
  Forall (@NoDup nat) pred_tokens ->
  list_sum (map (fun rp => good_row pad (fst rp) (snd rp))
                (combine real_tokens pred_tokens))
    <= length (filter (fun t => negb (t =? pad)) real_tokens).
Proof.
  induction real_tokens as [|r real_tokens IH]; intros [|p pred_tokens] Hnd;
    try (cbn; lia).
  inversion Hnd as [|? ? Hp Hrest]; subst. specialize (IH pred_tokens Hrest).
  change (good_row pad r p +
          list_sum (map (fun rp => good_row pad (fst rp) (snd rp))
                        (combine real_tokens pred_tokens))
          <= length (filter (fun t => negb (t =? pad)) (r :: real_tokens))).
  cbn [filter]. destruct (Nat.eqb_spec r pad) as [-> | Hne]; cbn [negb].
  - rewrite good_row_pad. exact IH.
  - pose proof (good_row_NoDup pad r p Hp). cbn [length]. lia.
Qed.

Lemma topk_rows_NoDup k probs tops :
  mapM (topk M k) probs = Ret tops -> Forall (@NoDup nat) (map snd tops).
Proof.
  intros H. apply mapM_Forall2 in H.
  induction H as [|row [vs ids] probs tops Hrow _ IH]; cbn [map]; constructor;
    [|exact IH].
  apply topk_indices in Hrow. apply Hrow.
Qed.

(** With one row of scores for each token, the number of good predictions
    never exceeds the number of tokens that are not padding, which is 0
    when every token is padding. *)
Theorem topk_accuracy_good_le_total real_tokens probs_tokens k tgt_pad_idx good total :
  1 <= k ->
  length probs_tokens = length real_tokens ->
  topk_accuracy_sums M real_tokens probs_tokens k tgt_pad_idx = Ret (good, total) ->
  good <= total /\ total <= length real_tokens /\
  (Forall (fun t => t = tgt_pad_idx) real_tokens -> good = 0 /\ total = 0).
Proof.
  intros _ _. unfold topk_accuracy_sums.
  destruct (mapM (topk M k) probs_tokens) as [tops| |] eqn:E; try discriminate.
  cbn [bind]. intros H. injection H as Hgood Htotal.
  assert (Hle : good <= total).
  { rewrite <- Hgood, <- Htotal. apply good_sum_bound. eapply topk_rows_NoDup; eauto. }
  split; [exact Hle|]. split; [rewrite <- Htotal; apply filter_length_le|].
  intros Hpad. assert (Hzero : total = 0); [|lia].
  rewrite <- Htotal. clear -Hpad.
  induction Hpad as [|t l Ht _ IH]; [reflexivity|].
  cbn [filter]. rewrite Ht, Nat.eqb_refl. exact IH.
Qed.

Lemma filter_firstn_le {A : Type} (f : A -> bool) k k' (l : list A) :
  k <= k' -> length (filter f (firstn k l)) <= length (filter f (firstn k' l)).
Proof.
  revert k k'. induction l as [|a l IH]; intros k k' Hk.
  - rewrite !firstn_nil. apply le_n.
  - destruct k as [|k]; [cbn; lia|]. destruct k' as [|k']; [lia|].
    cbn [firstn filter]. specialize (IH k k' ltac:(lia)).
    destruct (f a); cbn [length]; lia.
Qed.

Lemma good_sum_monotone pad k k' real_tokens : forall probs tops tops',
  k <= k' ->
  mapM (topk M k) probs = Ret tops -> mapM (topk M k') probs = Ret tops' ->
  list_sum (map (fun rp => good_row pad (fst rp) (snd rp))
                (combine real_tokens (map snd tops)))
    <= list_sum (map (fun rp => good_row pad (fst rp) (snd rp))
                     (combine real_tokens (map snd tops'))).
Proof.
  induction real_tokens as [|r real_tokens IH]; intros probs tops tops' Hk H H';
    [cbn; lia|].
  destruct probs as [|row probs].
  - inversion H; inversion H'; subst. cbn. lia.
  - apply mapM_cons_Ret in H, H'.
    destruct H as ([vs ids] & rest & Hrow & Hrest & ->).
    destruct H' as ([vs' ids'] & rest' & Hrow' & Hrest' & ->).
    change (good_row pad r ids +
            list_sum (map (fun rp => good_row pad (fst rp) (snd rp))
                          (combine real_tokens (map snd rest)))
            <= good_row pad r ids' +
               list_sum (map (fun rp => good_row pad (fst rp) (snd rp))
                             (combine real_tokens (map snd rest')))).
    specialize (IH probs rest rest' Hk Hrest Hrest').
    apply topk_indices in Hrow, Hrow'.
    destruct Hrow as (-> & _), Hrow' as (-> & _).
    pose proof (filter_firstn_le (fun p => (p =? r) && negb (r =? pad)) k k'
                  (map fst (sort_desc M snd (enumerate row))) Hk).
    unfold good_row in *. lia.
Qed.

(** With one row of scores for each token and scores that a total order
    compares and of which no two of a row are equal, a larger [k] never
    gives fewer good predictions, over the same number of tokens. *)
Theorem topk_accuracy_monotone real_tokens probs_tokens k k' tgt_pad_idx
        good total good' total' :
  (forall x y : F M, fleb M x y = true \/ fleb M y x = true) ->
  Forall (fun row => tie_free M row = true) probs_tokens ->
  length probs_tokens = length real_tokens ->
  1 <= k -> k <= k' ->
  topk_accuracy_sums M real_tokens probs_tokens k tgt_pad_idx = Ret (good, total) ->
  topk_accuracy_sums M real_tokens probs_tokens k' tgt_pad_idx = Ret (good', total') ->
  good <= good' /\ total = total'.
Proof.
  unfold topk_accuracy_sums. intros _ _ _ _ Hk.
  destruct (mapM (topk M k) probs_tokens) as [tops| |] eqn:E; try discriminate.
  destruct (mapM (topk M k') probs_tokens) as [tops'| |] eqn:E'; try discriminate.
  cbn [bind]. intros H H'. inversion H; inversion H'; subst. split; [|reflexivity].
  eapply good_sum_monotone; eauto.
Qed.

Lemma filter_length_perm {A : Type} (f : A -> bool) l l' :
  Permutation l l' -> length (filter f l) = length (filter f l').
Proof.
  induction 1 as [|a l l' _ IH|a b l|l1 l2 l3 _ IH1 _ IH2]; cbn [filter].
  - reflexivity.
  - destruct (f a); cbn [length]; lia.
  - destruct (f a), (f b); reflexivity.
  - congruence.
Qed.

Lemma filter_eq_seq_out r n : forall start,
  r < start -> filter (fun p => p =? r) (seq start n) = [].
Proof.
  induction n as [|n IH]; intros start Hr; [reflexivity|].
  cbn [seq filter]. destruct (Nat.eqb_spec start r); [lia|]. apply IH. lia.
Qed.

Lemma filter_eq_seq_in r n : forall start,
  start <= r < start + n -> length (filter (fun p => p =? r) (seq start n)) = 1.
Proof.
  induction n as [|n IH]; intros start Hr; [lia|].
  cbn [seq filter]. destruct (Nat.eqb_spec start r) as [-> | Hne].
  - rewrite filter_eq_seq_out by lia. reflexivity.
  - apply IH. lia.
Qed.

Lemma good_row_all pad r (ids : list nat) n :
  Permutation ids (seq 0 n) -> r < n -> r <> pad -> good_row pad r ids = 1.
Proof.
  intros Hp Hr Hne. unfold good_row.
  rewrite (filter_length_perm _ _ _ Hp).
  destruct (Nat.eqb_spec r pad); [congruence|]. cbn [negb].
  rewrite (filter_ext _ (fun p => p =? r)) by (intros; apply andb_true_r).
  apply filter_eq_seq_in. lia.
Qed.

Lemma good_sum_all pad k real_tokens : forall probs tops,
  length probs = length real_tokens ->
  Forall (fun row => length row = k) probs ->
  Forall (fun t => t < k) real_tokens ->
  mapM (topk M k) probs = Ret tops ->
  list_sum (map (fun rp => good_row pad (fst rp) (snd rp))
                (combine real_tokens (map snd tops)))
    = length (filter (fun t => negb (t =? pad)) real_tokens).
Proof.
  induction real_tokens as [|r real_tokens IH]; intros [|row probs] tops Hlen Hrows Hreal H;
    try discriminate.
  - reflexivity.
  - apply mapM_cons_Ret in H. destruct H as ([vs ids] & rest & Hrow & Hrest & ->).
    inversion Hrows as [|? ? Hk Hrows']; inversion Hreal as [|? ? Hr Hreal']; subst.
    change (good_row pad r ids +
            list_sum (map (fun rp => good_row pad (fst rp) (snd rp))
                          (combine real_tokens (map snd rest)))
            = length (filter (fun t => negb (t =? pad)) (r :: real_tokens))).
    rewrite (IH probs rest) by (auto; cbn in Hlen; lia).
    cbn [filter]. apply topk_indices in Hrow. destruct Hrow as (-> & _).
    destruct (Nat.eqb_spec r pad) as [-> | Hne]; cbn [negb length].
    + rewrite good_row_pad. reflexivity.
    + rewrite (good_row_all pad r _ (length row)); [reflexivity | | exact Hr | exact Hne].
      rewrite firstn_all2; [apply sort_desc_indices|].
      rewrite length_map, sort_desc_length, enumerate_length. apply le_n.
Qed.

(** With [k] the size of the vocabulary every token that is not padding
    is a good prediction: the accuracy is 1. *)
Theorem topk_accuracy_whole_vocabulary real_tokens probs_tokens k tgt_pad_idx :
  length probs_tokens = length real_tokens ->
  Forall (fun row => length row = k) probs_tokens ->
  Forall (fun t => t < k) real_tokens ->
  topk_accuracy_sums M real_tokens probs_tokens k tgt_pad_idx =
    Ret (length (filter (fun t => negb (t =? tgt_pad_idx)) real_tokens),
         length (filter (fun t => negb (t =? tgt_pad_idx)) real_tokens)).
Proof.
  intros Hlen Hrows Hreal. unfold topk_accuracy_sums.
  destruct (mapM_returns (topk M k) probs_tokens) as [tops Htops].
  { intros row Hin. apply topk_returns. rewrite Forall_forall in Hrows.
    rewrite (Hrows row Hin). apply le_n. }
  rewrite Htops. cbn [bind].
  rewrite (good_sum_all tgt_pad_idx k real_tokens probs_tokens tops); auto.
Qed.

End AccuracyFacts.

(* ================================================================= *)
(** ** More on the two searches *)

Section BeamsLayout.

(** [append_beams] on [batch_size] sentences and [batch_size] rows of
    [n_beams] tokens: [batch_size * n_beams] sentences, each one token
    longer, and sentence [i * n_beams + j] is sentence [i] with token [j]
    of row [i] at its end. *)
Theorem append_beams_layout target : forall beams n_beams,
  length beams = length target ->
  Forall (fun row => length row = n_beams) beams ->
  length (append_beams target beams) = length target * n_beams /\
  (forall n_tokens,
     Forall (fun row => length row = n_tokens) target ->
     Forall (fun row => length row = S n_tokens) (append_beams target beams)) /\
  (forall i j row brow b,
     nth_error target i = Some row -> nth_error beams i = Some brow ->
     nth_error brow j = Some b ->
     nth_error (append_beams target beams) (i * n_beams + j) = Some (row ++ [b])).
Proof.
  unfold append_beams.
  induction target as [|r target IH]; intros [|br beams] n_beams Hlen Hb;
    try discriminate.
  - cbn. repeat split; [constructor|]. intros [|i]; discriminate.
  - inversion Hb as [|? ? Hbr Hb']; subst. cbn in Hlen.
    destruct (IH beams (length br) ltac:(lia) Hb') as (IH1 & IH2 & IH3).
    cbn [combine flat_map fst snd]. split; [|split].
    + rewrite length_app, length_map, IH1. cbn [length]. lia.
    + intros n_tokens Hrows. inversion Hrows as [|? ? Hr Hrows']; subst.
      apply Forall_app. split; [|apply IH2; exact Hrows'].
      apply Forall_forall. intros child Hin. apply in_map_iff in Hin.
      destruct Hin as (b & <- & _). rewrite length_app. cbn. lia.
    + intros [|i] j row brow b Hrow Hbrow Hj.
      * inversion Hrow; inversion Hbrow; subst. cbn [Nat.mul Nat.add].
        rewrite nth_error_app1
          by (rewrite length_map; apply nth_error_Some; congruence).
        rewrite nth_error_map, Hj. reflexivity.
      * cbn in Hrow, Hbrow.
        rewrite nth_error_app2 by (rewrite length_map; cbn; lia).
        rewrite length_map.
        replace (S i * length br + j - length br) with (i * length br + j)
          by (cbn; lia).
        eapply IH3; eauto.
Qed.

End BeamsLayout.

Section ReturnFacts.

Variable M : Env.



Lemma lookup_tokens_returns itos l :
  Forall (fun i => i < length itos) l -> exists tokens, lookup_tokens itos l = Ret tokens.
Proof.
  intros H. apply mapM_returns. intros i Hi. rewrite Forall_forall in H.
  specialize (H i Hi). unfold lookup_token.
  destruct (nth_error itos i) eqn:E; [eauto|]. apply nth_error_None in E. lia.
Qed.

Lemma takewhile_In {A : Type} (f : A -> bool) l a : In a (takewhile f l) -> In a l.
Proof.
  induction l as [|b l IH]; cbn; [tauto|].
  destruct (f b); cbn; [|tauto]. intros [H | H]; auto.
Qed.

Lemma sentence_tokens_In row t : In t (sentence_tokens M row) -> In t row.
Proof.
  unfold sentence_tokens. intros H. apply takewhile_In in H.
  destruct row; [exact H | right; exact H].
Qed.

End ReturnFacts.

(* ================================================================= *)
(** ** Beam width 1, one hypothesis kept *)

Section Degenerate.

Variable M : Env.
Variable source : string.

Hypothesis fleb_total : forall x y : F M, fleb M x y = true \/ fleb M y x = true.
Hypothesis fleb_trans :
  forall x y z : F M, fleb M x y = true -> fleb M y z = true -> fleb M x z = true.




Hypothesis scores_shape :
  forall row, length (softmax M (model M (beam_source M source) row))
              = length (tgt_vocab M).






End Degenerate.

Section OriginFacts.

Variable M : Env.
Variable src_tokens : list nat.
Variables beam_width max_target : nat.

Lemma combine_same_In {A : Type} (l : list A) x y : In (x, y) (combine l l) -> x = y.
Proof.
  induction l as [|a l IH]; cbn; [tauto|].
  intros [H | H]; [inversion H; reflexivity | apply IH; exact H].
Qed.

Lemma kept_self_In {A : Type} (g : A -> bool) l a :
  In a (kept g l l) -> In a l /\ g a = true.
Proof.
  unfold kept. intros H. apply in_map_iff in H. destruct H as ([x y] & <- & H).
  apply filter_In in H. destruct H as [H1 H2]. cbn [fst snd] in *.
  pose proof (combine_same_In _ _ _ H1) as ->.
  apply in_combine_l in H1. auto.
Qed.

Lemma Forall2_In_r {A B : Type} (R : A -> B -> Prop) l1 l2 b :
  Forall2 R l1 l2 -> In b l2 -> exists a, In a l1 /\ R a b.
Proof.
  induction 1 as [|x y l1 l2 Hxy _ IH]; [intros []|].
  intros [<- | H].
  - exists x. split; [left; reflexivity | exact Hxy].
  - destruct (IH H) as (a & Ha & HR). exists a. split; [right; exact Ha | exact HR].
Qed.

(** Where the rows of the grouped pool come from: an active sentence with
    one of the tokens top-k selected for some row, or a terminated
    sentence with the token [0]. *)
Lemma beam_merge_origin (p m : pool M) child :
  aligned p ->
  beam_merge M src_tokens beam_width p = Ret m ->
  In child (tgt_tokens m) ->
  (exists row scored vs ids b,
     In row (tgt_tokens p) /\ active M row = true /\
     topk M beam_width (softmax M (model M src_tokens scored)) = Ret (vs, ids) /\
     In b ids /\ child = row ++ [b]) \/
  (exists row,
     In row (tgt_tokens p) /\ terminated M row = true /\ child = row ++ [0]).
Proof.
  intros Hal Hm Hin.
  destruct (beam_merge_Ret M src_tokens beam_width p m Hal Hm)
    as (tops & Htops & _ & Hrows & _).
  rewrite Hrows in Hin. apply in_app_or in Hin. destruct Hin as [Hin | Hin].
  - left. unfold append_beams in Hin. apply in_flat_map in Hin.
    destruct Hin as ([row ids] & Hpair & Hchild). cbn [fst snd] in Hchild.
    apply in_map_iff in Hchild. destruct Hchild as (b & <- & Hb).
    pose proof (in_combine_l _ _ _ _ Hpair) as Hrow.
    pose proof (in_combine_r _ _ _ _ Hpair) as Hids.
    apply kept_self_In in Hrow. destruct Hrow as [Hrow Hact].
    apply kept_In in Hids. apply in_map_iff in Hids.
    destruct Hids as ([vs ids'] & Heq & Htop). cbn [snd] in Heq. subst ids'.
    apply mapM_Forall2 in Htops.
    destruct (Forall2_In_r _ _ _ _ Htops Htop) as (scored & _ & Hscored).
    exists row, scored, vs, ids, b. repeat split; assumption.
  - right. apply in_map_iff in Hin. destruct Hin as (row & <- & Hrow).
    apply kept_self_In in Hrow. destruct Hrow as [Hrow Hterm].
    exists row. repeat split; assumption.
Qed.

Lemma beam_trim_rows_In (m p : pool M) row :
  aligned m ->
  beam_trim M max_target m = Ret p ->
  In row (tgt_tokens p) -> In row (tgt_tokens m).
Proof.
  unfold beam_trim. intros Hal.
  destruct (length (target_probs m) <=? max_target).
  - intros H. inversion H. auto.
  - destruct (topk M max_target (target_probs m)) as [[vs ids]| |] eqn:E; try discriminate.
    cbn [bind fst snd]. intros H Hin. inversion H; subst. cbn in Hin.
    eapply topk_index_In; eauto.
Qed.

End OriginFacts.

Section VisitedFacts.

Variable M : Env.
Variable source : string.
Variables beam_width max_target : nat.
Variable max_sentence_length : Z.

(** A property of sentences that [<bos>] has and that the two ways of
    making a sentence longer keep holds of every sentence of every pool
    of the loop. *)
Lemma visited_rows (P : list nat -> Prop) :
  P [BOS_IDX M] ->
  (forall row scored vs ids b,
     P row -> active M row = true ->
     topk M beam_width (softmax M (model M (beam_source M source) scored)) = Ret (vs, ids) ->
     In b ids -> P (row ++ [b])) ->
  (forall row, P row -> terminated M row = true -> P (row ++ [0])) ->
  forall p,
    visited M source beam_width max_target max_sentence_length p ->
    Forall P (tgt_tokens p).
Proof.
  intros Hinit Hchild Hpad p Hv.
  induction Hv as [|p p' Hv IH Hlt Hstep].
  - constructor; [exact Hinit | constructor].
  - destruct (visited_shape M source beam_width max_target max_sentence_length p Hv)
      as (Hal & _ & _).
    destruct (beam_step_Ret M _ _ _ p p' Hstep) as (m & Hm & Ht).
    destruct (beam_merge_shape M _ _ p m Hal Hm) as (_ & Halm & _).
    rewrite Forall_forall in IH. apply Forall_forall. intros child Hin.
    apply (beam_trim_rows_In M max_target m p' child Halm Ht) in Hin.
    destruct (beam_merge_origin M _ _ p m child Hal Hm Hin)
      as [(row & scored & vs & ids & b & Hrow & Hact & Htop & Hb & ->)
         | (row & Hrow & Hterm & ->)].
    + eapply Hchild; eauto.
    + apply Hpad; auto.
Qed.

(** In every pool of the loop the rows of the grouped pool are
    [beam_width] children for each active sentence and one row for each
    terminated sentence, and nothing else: a child is an active sentence
    with one more token, a terminated sentence only ever gets the token
    [0]. *)
Theorem beam_merge_census (p m : pool M) :
  visited M source beam_width max_target max_sentence_length p ->
  beam_merge M (beam_source M source) beam_width p = Ret m ->
  length (tgt_tokens m) =
    beam_width * length (filter (active M) (tgt_tokens p))
    + length (filter (terminated M) (tgt_tokens p)) /\
  length (target_probs m) = length (tgt_tokens m) /\
  forall child, In child (tgt_tokens m) ->
    (exists row b, In row (tgt_tokens p) /\ contains (EOS_IDX M) row = false /\
                   child = row ++ [b]) \/
    (exists row, In row (tgt_tokens p) /\ contains (EOS_IDX M) row = true /\
                 child = row ++ [0]).
Proof.
  intros Hv Hm.
  destruct (visited_shape M source beam_width max_target max_sentence_length p Hv)
    as (Hal & _ & _).
  destruct (beam_merge_Ret M _ _ p m Hal Hm) as (tops & Htops & _ & Hrows & _).
  destruct (beam_merge_shape M _ _ p m Hal Hm) as (_ & Halm & _).
  pose proof (mapM_length _ _ _ Htops) as Hlen.
  pose proof (beams_full _ _ _ _ _ Htops) as Hfull.
  unfold aligned in Hal.
  destruct (expand_length M beam_width (tgt_tokens p) (target_probs p) tops)
    as [Hl1 _]; try congruence.
  split; [|split].
  - rewrite Hrows, length_app, Hl1, length_map, kept_length; reflexivity.
  - symmetry. exact Halm.
  - intros child Hin.
    destruct (beam_merge_origin M _ _ p m child Hal Hm Hin)
      as [(row & scored & vs & ids & b & Hrow & Hact & _ & _ & ->)
         | (row & Hrow & Hterm & ->)].
    + left. exists row, b. unfold active in Hact. apply negb_true_iff in Hact. auto.
    + right. exists row. auto.
Qed.

(** After its first [<eos>] a sentence of a pool holds nothing but the
    token [0]. *)
Theorem visited_rows_padded (p : pool M) row :
  visited M source beam_width max_target max_sentence_length p ->
  In row (tgt_tokens p) ->
  contains (EOS_IDX M) row = false \/
  exists sentence n,
    row = sentence ++ EOS_IDX M :: repeat 0 n /\
    contains (EOS_IDX M) sentence = false.
Proof.
  intros Hv Hin.
  assert (Hall : Forall
    (fun row => contains (EOS_IDX M) row = false \/
                exists sentence n,
                  row = sentence ++ EOS_IDX M :: repeat 0 n /\
                  contains (EOS_IDX M) sentence = false) (tgt_tokens p)).
  { apply visited_rows; [left; reflexivity | | | exact Hv].
    - intros r scored vs ids b _ Hact _ _.
      unfold active in Hact. apply negb_true_iff in Hact.
      destruct (Nat.eqb_spec (EOS_IDX M) b) as [<- | Hne].
      + right. exists r, 0. split; [reflexivity | exact Hact].
      + left. rewrite contains_app, Hact, contains_single.
        destruct (Nat.eqb_spec (EOS_IDX M) b); [congruence | reflexivity].
    - intros r [Hr | (sentence & n & -> & Hs)] Hterm.
      + unfold terminated in Hterm. congruence.
      + right. exists sentence, (S n). split; [|exact Hs].
        rewrite <- app_assoc. cbn [app]. f_equal. f_equal.
        change (0 :: repeat 0 n) with (repeat 0 (S n)).
        rewrite <- repeat_cons. reflexivity. }
  rewrite Forall_forall in Hall. apply Hall, Hin.
Qed.

(** [beam_search] returns its list whenever the beam width and the number
    of hypotheses kept are positive, the network gives one score for each
    token of the target vocabulary and the beam is no wider than the
    vocabulary: top-k and the vocabulary are never asked out of range. *)
Theorem beam_search_returns :
  1 <= beam_width -> 1 <= max_target ->
  (forall row, length (softmax M (model M (beam_source M source) row))
               = length (tgt_vocab M)) ->
  beam_width <= length (tgt_vocab M) ->
  exists out, beam_search M source beam_width max_target max_sentence_length = Ret out.
Proof.
  intros _ _ Hscores Hwidth.
  assert (Hwide : forall row,
            beam_width <= length (softmax M (model M (beam_source M source) row))).
  { intros row. rewrite Hscores. exact Hwidth. }
  assert (Hpos : 4 <= length (tgt_vocab M)).
  { unfold tgt_vocab, build_vocab. rewrite length_app. cbn. lia. }
  unfold beam_search.
  destruct (beam_final M source beam_width max_target max_sentence_length)
    as [p| |] eqn:Ep.
  - cbn [bind]. unfold beam_sentences.
    pose proof (beam_final_visited M source beam_width max_target max_sentence_length p Ep)
      as Hv.
    assert (Hall : Forall (fun row => Forall (fun i => i < length (tgt_vocab M)) row)
                          (tgt_tokens p)).
    { apply visited_rows; [| | | exact Hv].
      - constructor; [change (BOS_IDX M) with 2; lia | constructor].
      - intros row scored vs ids b Hrow _ Htop Hb. apply Forall_app. split; [exact Hrow|].
        constructor; [|constructor].
        apply topk_indices in Htop. destruct Htop as (_ & _ & Hids).
        rewrite Forall_forall in Hids. rewrite <- (Hscores scored). apply Hids, Hb.
      - intros row Hrow _. apply Forall_app. split; [exact Hrow|].
        constructor; [lia | constructor]. }
    destruct (mapM_returns (sentence_of M) (tgt_tokens p)) as [sentences ->].
    { intros row Hrow. rewrite Forall_forall in Hall. specialize (Hall row Hrow).
      unfold sentence_of.
      destruct (lookup_tokens_returns (tgt_vocab M) (sentence_tokens M row))
        as [tokens ->].
      - rewrite Forall_forall in Hall. apply Forall_forall. intros t Ht.
        apply Hall. eapply sentence_tokens_In; eauto.
      - cbn [bind]. eauto. }
    cbn [bind]. eauto.
  - exfalso. unfold beam_final in Ep. revert Ep. apply beam_loop_never_raises. exact Hwide.
  - exfalso. unfold beam_final in Ep. revert Ep.
    apply beam_loop_enough_fuel; [apply beam_init_shape|]. cbn. lia.
Qed.

(** For [max_sentence_length >= 2] the returned list has one entry for
    each hypothesis of the final pool and at most [max_target] entries. *)
Theorem beam_search_at_most_max_target out :
  (2 <= max_sentence_length)%Z ->
  beam_search M source beam_width max_target max_sentence_length = Ret out ->
  length out <= max_target /\
  exists p,
    beam_final M source beam_width max_target max_sentence_length = Ret p /\
    length out = length (tgt_tokens p).
Proof.
  intros HL. unfold beam_search.
  destruct (beam_final M source beam_width max_target max_sentence_length)
    as [p| |] eqn:Ep; try discriminate.
  cbn [bind]. unfold beam_sentences.
  destruct (mapM (sentence_of M) (tgt_tokens p)) as [sentences| |] eqn:Es;
    try discriminate.
  cbn [bind]. intros H. inversion H; subst; clear H.
  pose proof (beam_final_visited M source beam_width max_target max_sentence_length p Ep)
    as Hv.
  destruct (visited_shape M source beam_width max_target max_sentence_length p Hv)
    as (Hal & _ & _).
  pose proof (mapM_length _ _ _ Es) as Hlen. unfold aligned in Hal.
  assert (Hout : length (sort_desc M snd (combine sentences (target_probs p)))
                 = length (tgt_tokens p)).
  { rewrite sort_desc_length, length_combine. lia. }
  split; [|exists p; split; [reflexivity | exact Hout]].
  rewrite Hout. unfold beam_final in Ep.
  destruct (beam_loop_Ret _ _ _ _ _ _ _ _ (proj1 (beam_init_shape M))
              (proj2 (beam_init_shape M)) Ep) as (_ & _ & Hge & _).
  destruct Hv as [|q p' Hq Hlt Hstep].
  - cbn in Hge. lia.
  - destruct (visited_shape M source beam_width max_target max_sentence_length q Hq)
      as (Halq & _ & _).
    destruct (beam_step_Ret M _ _ _ q p' Hstep) as (m & Hm & Ht).
    destruct (beam_merge_shape M _ _ q m Halq Hm) as (_ & Halm & _).
    destruct (beam_trim_size M max_target m p' Ht Halm) as (_ & Hal' & Hsize).
    lia.
Qed.

(** A hypothesis that never reached [<eos>] is returned whole: all its
    [max_sentence_length - 1] tokens after [<bos>]. *)
Theorem beam_search_unterminated (p : pool M) row :
  (1 <= max_sentence_length)%Z ->
  beam_final M source beam_width max_target max_sentence_length = Ret p ->
  In row (tgt_tokens p) ->
  contains (EOS_IDX M) row = false ->
  sentence_tokens M row = tl row /\
  Z.of_nat (length (sentence_tokens M row)) = (max_sentence_length - 1)%Z.
Proof.
  intros HL Hp Hrow Hc.
  assert (Hs : sentence_tokens M row = tl row).
  { unfold sentence_tokens. apply contains_false in Hc.
    assert (Htl : Forall (fun t => negb (t =? EOS_IDX M) = true) (tl row)).
    { destruct row; [constructor | inversion Hc; assumption]. }
    clear Hc. induction Htl as [|t l Ht _ IH]; [reflexivity|].
    cbn [takewhile]. rewrite Ht, IH. reflexivity. }
  split; [exact Hs|]. rewrite Hs.
  pose proof (beam_final_visited M source beam_width max_target max_sentence_length p Hp)
    as Hv.
  destruct (visited_shape M source beam_width max_target max_sentence_length p Hv)
    as (_ & Hrect & Hmax).
  unfold beam_final in Hp.
  destruct (beam_loop_Ret _ _ _ _ _ _ _ _ (proj1 (beam_init_shape M))
              (proj2 (beam_init_shape M)) Hp) as (_ & _ & Hge & _).
  unfold rectangular in Hrect. rewrite Forall_forall in Hrect.
  specialize (Hrect row Hrow). destruct row; cbn [tl length] in *; lia.
Qed.

End VisitedFacts.

(* ================================================================= *)
(** ** The further facts in the concrete setting *)

Section MoreConcreteFacts.

Local Open Scope string_scope.

(** Three tokens, the last one padding: one good prediction of two. *)
Lemma topk_accuracy_good_le_total_witness :
  1 <= 2 /\ 2 <= length [4; 5; 1] /\
  (Forall (fun t => t = 1) [4; 5; 1] -> 1 = 0 /\ 2 = 0).
Proof.
  apply (topk_accuracy_good_le_total (Qenv net_ab) [4; 5; 1] acc_probs 1 1 1 2).
  - lia.
  - reflexivity.
  - reflexivity.
Defined.

(** Three tokens against scores without ties, [k] = 1 and [k] = 2. *)
Lemma topk_accuracy_monotone_witness : 1 <= 2 /\ 2 = 2.
Proof.
  apply (topk_accuracy_monotone (Qenv net_ab) [4; 5; 1] acc_scores 1 2 1 1 2 2 2).
  - exact Qle_bool_total.
  - repeat (constructor; [reflexivity|]). constructor.
  - reflexivity.
  - lia.
  - lia.
  - reflexivity.
  - reflexivity.
Defined.

(** The same tokens with [k] = 6, the number of scores. *)
Lemma topk_accuracy_whole_vocabulary_witness :
  topk_accuracy_sums (Qenv net_ab) [4; 5; 1] acc_probs 6 1 =
    Ret (length (filter (fun t => negb (t =? 1)%nat) [4; 5; 1]),
         length (filter (fun t => negb (t =? 1)%nat) [4; 5; 1])).
Proof.
  apply (topk_accuracy_whole_vocabulary (Qenv net_ab) [4; 5; 1] acc_probs 6 1).
  - reflexivity.
  - repeat constructor.
  - repeat (constructor; [lia|]). constructor.
Defined.

(** Two sentences, two beams each. *)
Lemma append_beams_layout_witness :
  length (append_beams [[2; 4]; [2; 5]] [[7; 8]; [9; 10]]) = 2 * 2 /\
  (forall n_tokens,
     Forall (fun row => length row = n_tokens) [[2; 4]; [2; 5]] ->
     Forall (fun row => length row = S n_tokens)
            (append_beams [[2; 4]; [2; 5]] [[7; 8]; [9; 10]])) /\
  (forall i j row brow b,
     nth_error [[2; 4]; [2; 5]] i = Some row ->
     nth_error [[7; 8]; [9; 10]] i = Some brow ->
     nth_error brow j = Some b ->
     nth_error (append_beams [[2; 4]; [2; 5]] [[7; 8]; [9; 10]]) (i * 2 + j)
       = Some (row ++ [b])%list).
Proof.
  apply (append_beams_layout [[2; 4]; [2; 5]] [[7; 8]; [9; 10]] 2).
  - reflexivity.
  - repeat constructor.
Defined.

(** The second turn of the search with [net_ab]. *)
Lemma beam_merge_census_witness :
  length (tgt_tokens ab_merged2) =
    2 * length (filter (active (Qenv net_ab)) (tgt_tokens ab_pool1))
    + length (filter (terminated (Qenv net_ab)) (tgt_tokens ab_pool1)) /\
  length (target_probs ab_merged2) = length (tgt_tokens ab_merged2) /\
  forall child, In child (tgt_tokens ab_merged2) ->
    (exists row b, In row (tgt_tokens ab_pool1) /\
                   contains (EOS_IDX (Qenv net_ab)) row = false /\
                   child = (row ++ [b])%list) \/
    (exists row, In row (tgt_tokens ab_pool1) /\
                 contains (EOS_IDX (Qenv net_ab)) row = true /\
                 child = (row ++ [0])%list).
Proof.
  apply (beam_merge_census (Qenv net_ab) "ab" 2 2 6 ab_pool1 ab_merged2).
  - exact ab_pool1_visited.
  - reflexivity.
Defined.

Lemma ab_final_visited : visited (Qenv net_ab) "ab" 2 2 6 ab_final.
Proof. apply beam_final_visited. reflexivity. Qed.

(** A terminated sentence of the final pool of the search with [net_ab]. *)
Lemma visited_rows_padded_witness :
  contains (EOS_IDX (Qenv net_ab)) [2; 4; 4; 4; 3; 0] = false \/
  exists sentence n,
    [2; 4; 4; 4; 3; 0] = (sentence ++ EOS_IDX (Qenv net_ab) :: repeat 0 n)%list /\
    contains (EOS_IDX (Qenv net_ab)) sentence = false.
Proof.
  apply (visited_rows_padded (Qenv net_ab) "ab" 2 2 6 ab_final [2; 4; 4; 4; 3; 0]).
  - exact ab_final_visited.
  - left. reflexivity.
Defined.

(** The search with [net_ab], beam width 2 of a vocabulary of six. *)
Lemma beam_search_returns_witness :
  exists out, beam_search (Qenv net_ab) "ab" 2 2 6 = Ret out.
Proof.
  apply (beam_search_returns (Qenv net_ab) "ab" 2 2 6).
  - lia.
  - lia.
  - intros row. cbn. unfold net_ab. destruct (length row <? 4)%nat; reflexivity.
  - cbn. lia.
Defined.

(** The list that search returns. *)
Lemma beam_search_at_most_max_target_witness :
  length [("a a a", (215784 # 1000000)%Q); ("a a b", (143856 # 1000000)%Q)] <= 2 /\
  exists p,
    beam_final (Qenv net_ab) "ab" 2 2 6 = Ret p /\
    length [("a a a", (215784 # 1000000)%Q); ("a a b", (143856 # 1000000)%Q)]
      = length (tgt_tokens p).
Proof.
  apply (beam_search_at_most_max_target (Qenv net_ab) "ab" 2 2 6).
  - lia.
  - reflexivity.
Defined.

(** The search with [net_a], which never gives [<eos>]. *)
Lemma beam_search_unterminated_witness :
  sentence_tokens (Qenv net_a) [2; 4; 4] = tl [2; 4; 4] /\
  Z.of_nat (length (sentence_tokens (Qenv net_a) [2; 4; 4])) = (3 - 1)%Z.
Proof.
  apply (beam_search_unterminated (Qenv net_a) "ab" 1 1 3 a_final [2; 4; 4]).
  - lia.
  - reflexivity.
  - left. reflexivity.
  - reflexivity.
Defined.

(** On every call [greedy_search] raises at line 1422, where it reads
    [tgt_vocab.stoi]. *)
Lemma greedy_search_raises M source max_sentence_length :
  greedy_search M source max_sentence_length = Raised.
Proof. reflexivity. Qed.



End MoreConcreteFacts.
